(** * Definitely-reachable / definitely-reaching pattern analyses

    A shallow embedding of the worklist engine of [src/ptfa.py] and of its
    copy in [src/main.py], together with the properties the specification
    states about them.

    The engine object is a mutable Python object: its attributes are
    modelled by the record [State], its methods by computations in a
    state-and-exception monad [M].  The [while] loop takes a fuel
    argument; the theorems show how much fuel is always enough. *)

From Stdlib Require Import ZArith Lia.
From stdpp Require Import base option list gmap sets strings.

Open Scope Z_scope.

(** ** The control-flow graph (external collaborator)

    [code_analysis.CFG] is an external library; the engine only calls the
    four accessors below and never mutates the graph. *)

Record CFG : Type := mkCFG {
  get_node_ids : list Z;
  get_type : Z → string;
  get_any_parents : Z → list Z;
  get_any_children : Z → list Z
}.

(** [PatternCheck = Callable[[CFG, int], bool]] *)
Definition PatternCheck : Type := CFG → Z → bool.

(** ** Exceptions, events and the object state *)

Inductive exn : Type :=
| KeyError (k : Z)
| IndexError.

(** The two dictionaries of the engine. *)
Inductive dict_id : Type := In_dict | Out_dict.

(** Ghost events: what a run did, most recent first.  They are not part
    of the Python object; they let the statements speak about the
    individual writes, pushes, node checks and predicate calls of a run. *)
Inductive event : Type :=
| EWrite (d : dict_id) (k : Z) (old : option bool) (new : bool)
| EPush (nid : Z)
| EPop (nid : Z)
| ECheck (nid : Z)
| ECall (nid : Z).

(** The attributes [visited], [worklist], [in_dict], [out_dict] of the
    engine.  The worklist is kept top first: [append] is a cons and [pop]
    takes the head, which is the last element of the Python list. *)
Record State : Type := mkState {
  visited : gset Z;
  worklist : list Z;
  in_dict : gmap Z bool;
  out_dict : gmap Z bool;
  trace : list event
}.

(** ** The monad: state, exceptions, and fuel exhaustion *)

Inductive Res (A : Type) : Type :=
| Val (a : A) (s : State)
| Exc (e : exn) (s : State)
| Fuel.
Arguments Val {A} a s.
Arguments Exc {A} e s.
Arguments Fuel {A}.

Definition M (A : Type) : Type := State → Res A.

Definition ret {A} (a : A) : M A := λ s, Val a s.

Definition bind {A B} (f : A → M B) (m : M A) : M B :=
  λ s, match m s with
       | Val a s' => f a s'
       | Exc e s' => Exc e s'
       | Fuel => Fuel
       end.

Definition timeout {A} : M A := λ _, Fuel.

(** stdpp's notations [x ← m; k] and [m;; k] for sequencing. *)
#[global] Instance M_ret : MRet M := @ret.
#[global] Instance M_bind : MBind M := @bind.

(** [for x in l: body(x)] *)
Fixpoint for_each {A} (l : list A) (body : A → M unit) : M unit :=
  match l with
  | [] => ret tt
  | x :: l' => body x;; for_each l' body
  end.

(** [with suppress(IndexError): m] *)
Definition suppress_IndexError (m : M unit) : M unit :=
  λ s, match m s with
       | Exc IndexError s' => Val tt s'
       | r => r
       end.

(** ** Primitive operations on the object *)

Definition dict (d : dict_id) (s : State) : gmap Z bool :=
  match d with In_dict => in_dict s | Out_dict => out_dict s end.

Definition set_dict (d : dict_id) (m : gmap Z bool) (s : State) : State :=
  match d with
  | In_dict => mkState (visited s) (worklist s) m (out_dict s) (trace s)
  | Out_dict => mkState (visited s) (worklist s) (in_dict s) m (trace s)
  end.

Definition emit (e : event) (s : State) : State :=
  mkState (visited s) (worklist s) (in_dict s) (out_dict s) (e :: trace s).

(** [self.d[k]]: raises [KeyError] on a missing key. *)
Definition getitem (d : dict_id) (k : Z) : M bool :=
  λ s, match dict d s !! k with
       | Some b => Val b s
       | None => Exc (KeyError k) s
       end.

(** [self.d[k] = v]: binds or rebinds the key. *)
Definition setitem (d : dict_id) (k : Z) (v : bool) : M unit :=
  λ s, Val tt (emit (EWrite d k (dict d s !! k) v)
                 (set_dict d (<[k := v]> (dict d s)) s)).

(** [self.worklist.append(k)] *)
Definition worklist_append (k : Z) : M unit :=
  λ s, Val tt (mkState (visited s) (k :: worklist s) (in_dict s) (out_dict s)
                 (EPush k :: trace s)).

(** [self.worklist.pop()]: raises [IndexError] on the empty list. *)
Definition worklist_pop : M Z :=
  λ s, match worklist s with
       | [] => Exc IndexError s
       | k :: wl => Val k (mkState (visited s) wl (in_dict s) (out_dict s)
                             (EPop k :: trace s))
       end.

(** [bool(self.worklist)] *)
Definition worklist_nonempty : M bool :=
  λ s, Val (match worklist s with [] => false | _ => true end) s.

(** [self.visited.add(k)] *)
Definition visited_add (k : Z) : M unit :=
  λ s, Val tt (mkState ({[k]} ∪ visited s) (worklist s) (in_dict s) (out_dict s)
                 (trace s)).

(** [k not in self.visited] *)
Definition not_in_visited (k : Z) : M bool :=
  λ s, Val (bool_decide (k ∉ visited s)) s.

(** Ghost: record an event; no effect on the object. *)
Definition mark (e : event) : M unit := λ s, Val tt (emit e s).

(** A call of the predicate, a pure function of the graph and the node. *)
Definition call_pattern (check_pattern : PatternCheck) (cfg : CFG) (nid : Z) : M bool :=
  λ s, Val (check_pattern cfg nid) (emit (ECall nid) s).

(** [a or b], where [b] is evaluated only when [a] is false. *)
Definition or_else (a : bool) (b : M bool) : M bool :=
  if a then ret true else b.

(** [a < b] on Python booleans: [False < True] only. *)
Definition bool_lt (a b : bool) : bool := negb a && b.

(** [{k: True for k in node_ids}] *)
Definition all_true (node_ids : list Z) : gmap Z bool :=
  foldl (λ m k, <[k := true]> m) ∅ node_ids.

(** The start of [__call__]: the four attributes are rebound. *)
Definition reset (cfg : CFG) : M unit :=
  λ _, Val tt (mkState ∅ [] (all_true (get_node_ids cfg))
                 (all_true (get_node_ids cfg)) []).

(** [return self.in_dict, self.out_dict] *)
Definition return_dicts : M (gmap Z bool * gmap Z bool) :=
  λ s, Val (in_dict s, out_dict s) s.

(** ** [src/ptfa.py] *)

Module ptfa.

(** The abstract class: the five methods a subclass supplies.  A
    generator of [None] is the list of the computations run between two
    [yield]s; [self.cfg] and [self.check_pattern] are passed along. *)
Class DefinitelyPTFA : Type := {
  pre_loop_init : CFG → list (M unit);
  check_node : PatternCheck → CFG → Z → M unit;
  next_nodes : CFG → Z → list Z;
  can_propagate : Z → Z → M bool;
  propagate : Z → Z → M unit
}.

Section engine.
Context `{DefinitelyPTFA}.
Variable check_pattern : PatternCheck.
Variable cfg : CFG.

(** The body of [for next_nid in self.next_nodes(nid)]. *)
Definition visit_next (nid next_nid : Z) : M unit :=
  c ← can_propagate nid next_nid;
  go ← or_else c (not_in_visited next_nid);
  if go : bool then
    propagate nid next_nid;;
    worklist_append next_nid;;
    visited_add next_nid
  else ret tt.

(** [while self.worklist: ...] *)
Fixpoint while_worklist (fuel : nat) : M unit :=
  match fuel with
  | O => timeout
  | S fuel' =>
      more ← worklist_nonempty;
      if more : bool then
        nid ← worklist_pop;
        mark (ECheck nid);;
        check_node check_pattern cfg nid;;
        for_each (next_nodes cfg nid) (visit_next nid);;
        while_worklist fuel'
      else ret tt
  end.

(** [DefinitelyPTFA.__call__] *)
Definition call (fuel : nat) : M (gmap Z bool * gmap Z bool) :=
  reset cfg;;
  for_each (pre_loop_init cfg) (λ seed, seed;; while_worklist fuel);;
  return_dicts.
End engine.

(** [DefinitelyReachablePTFA] *)
Module Reachable.
Definition get_exit_node (cfg : CFG) : list Z :=
  filter (λ nid, get_type cfg nid = "Exit"%string) (get_node_ids cfg).

Definition pre_loop_init (cfg : CFG) : list (M unit) :=
  (λ exit_nid,
     setitem Out_dict exit_nid false;;
     visited_add exit_nid;;
     worklist_append exit_nid) <$> get_exit_node cfg.

Definition check_node (check_pattern : PatternCheck) (cfg : CFG) (nid : Z) : M unit :=
  o ← getitem Out_dict nid;
  v ← or_else o (call_pattern check_pattern cfg nid);
  setitem In_dict nid v.

Definition next_nodes (cfg : CFG) (nid : Z) : list Z := get_any_parents cfg nid.

Definition can_propagate (nid next_nid : Z) : M bool :=
  a ← getitem In_dict nid;
  b ← getitem Out_dict next_nid;
  ret (bool_lt a b).

Definition propagate (nid next_nid : Z) : M unit :=
  v ← getitem In_dict nid;
  setitem Out_dict next_nid v.
End Reachable.

#[global] Instance DefinitelyReachablePTFA : DefinitelyPTFA := {|
  pre_loop_init := Reachable.pre_loop_init;
  check_node := Reachable.check_node;
  next_nodes := Reachable.next_nodes;
  can_propagate := Reachable.can_propagate;
  propagate := Reachable.propagate
|}.

(** [DefinitelyReachingPTFA] *)
Module Reaching.
Definition get_entry_node (cfg : CFG) : list Z :=
  filter (λ nid, get_type cfg nid = "Entry"%string) (get_node_ids cfg).

Definition pre_loop_init (cfg : CFG) : list (M unit) :=
  (λ entry_nid,
     setitem In_dict entry_nid false;;
     visited_add entry_nid;;
     worklist_append entry_nid) <$> get_entry_node cfg.

Definition check_node (check_pattern : PatternCheck) (cfg : CFG) (nid : Z) : M unit :=
  i ← getitem In_dict nid;
  v ← or_else i (call_pattern check_pattern cfg nid);
  setitem Out_dict nid v.

Definition next_nodes (cfg : CFG) (nid : Z) : list Z := get_any_children cfg nid.

Definition can_propagate (nid next_nid : Z) : M bool :=
  a ← getitem Out_dict nid;
  b ← getitem In_dict next_nid;
  ret (bool_lt a b).

Definition propagate (nid next_nid : Z) : M unit :=
  v ← getitem Out_dict nid;
  setitem In_dict next_nid v.
End Reaching.

#[global] Instance DefinitelyReachingPTFA : DefinitelyPTFA := {|
  pre_loop_init := Reaching.pre_loop_init;
  check_node := Reaching.check_node;
  next_nodes := Reaching.next_nodes;
  can_propagate := Reaching.can_propagate;
  propagate := Reaching.propagate
|}.

End ptfa.

(** ** [src/main.py]

    The same engine with the graph bound by the constructor and the
    predicate passed to the call.  Its loop pops first and tests the
    popped value: [while nid := self.worklist.pop()], inside
    [with suppress(IndexError)]. *)

Module main.

Class DefinitelyPTFA : Type := {
  pre_loop_init : CFG → list (M unit);
  check_node : CFG → Z → PatternCheck → M unit;
  next_nodes : CFG → Z → list Z;
  can_propagate : Z → Z → M bool;
  propagate : Z → Z → M unit
}.

Section engine.
Context `{DefinitelyPTFA}.
Variable cfg : CFG.
Variable check_pattern : PatternCheck.

Definition visit_next (nid next_nid : Z) : M unit :=
  c ← can_propagate nid next_nid;
  go ← or_else c (not_in_visited next_nid);
  if go : bool then
    propagate nid next_nid;;
    worklist_append next_nid;;
    visited_add next_nid
  else ret tt.

(** [while nid := self.worklist.pop(): ...]: the loop ends when the
    popped integer is falsy, that is when it is [0]; popping the empty
    list raises [IndexError]. *)
Fixpoint while_pop (fuel : nat) : M unit :=
  match fuel with
  | O => timeout
  | S fuel' =>
      nid ← worklist_pop;
      if bool_decide (nid ≠ 0) then
        mark (ECheck nid);;
        check_node cfg nid check_pattern;;
        for_each (next_nodes cfg nid) (visit_next nid);;
        while_pop fuel'
      else ret tt
  end.

(** [DefinitelyPTFA.__call__] *)
Definition call (fuel : nat) : M (gmap Z bool * gmap Z bool) :=
  reset cfg;;
  for_each (pre_loop_init cfg)
    (λ seed, seed;; suppress_IndexError (while_pop fuel));;
  return_dicts.
End engine.

Module Reachable.
Definition get_exit_node (cfg : CFG) : list Z :=
  filter (λ nid, get_type cfg nid = "Exit"%string) (get_node_ids cfg).

Definition pre_loop_init (cfg : CFG) : list (M unit) :=
  (λ exit_nid,
     setitem Out_dict exit_nid false;;
     visited_add exit_nid;;
     worklist_append exit_nid) <$> get_exit_node cfg.

Definition check_node (cfg : CFG) (nid : Z) (check_pattern : PatternCheck) : M unit :=
  o ← getitem Out_dict nid;
  v ← or_else o (call_pattern check_pattern cfg nid);
  setitem In_dict nid v.

Definition next_nodes (cfg : CFG) (nid : Z) : list Z := get_any_parents cfg nid.

Definition can_propagate (nid next_nid : Z) : M bool :=
  a ← getitem In_dict nid;
  b ← getitem Out_dict next_nid;
  ret (bool_lt a b).

Definition propagate (nid next_nid : Z) : M unit :=
  v ← getitem In_dict nid;
  setitem Out_dict next_nid v.
End Reachable.

#[global] Instance DefinitelyReachablePTFA : DefinitelyPTFA := {|
  pre_loop_init := Reachable.pre_loop_init;
  check_node := Reachable.check_node;
  next_nodes := Reachable.next_nodes;
  can_propagate := Reachable.can_propagate;
  propagate := Reachable.propagate
|}.

Module Reaching.
Definition get_entry_node (cfg : CFG) : list Z :=
  filter (λ nid, get_type cfg nid = "Entry"%string) (get_node_ids cfg).

Definition pre_loop_init (cfg : CFG) : list (M unit) :=
  (λ entry_nid,
     setitem In_dict entry_nid false;;
     visited_add entry_nid;;
     worklist_append entry_nid) <$> get_entry_node cfg.

Definition check_node (cfg : CFG) (nid : Z) (check_pattern : PatternCheck) : M unit :=
  i ← getitem In_dict nid;
  v ← or_else i (call_pattern check_pattern cfg nid);
  setitem Out_dict nid v.

Definition next_nodes (cfg : CFG) (nid : Z) : list Z := get_any_children cfg nid.

Definition can_propagate (nid next_nid : Z) : M bool :=
  a ← getitem Out_dict nid;
  b ← getitem In_dict next_nid;
  ret (bool_lt a b).

Definition propagate (nid next_nid : Z) : M unit :=
  v ← getitem Out_dict nid;
  setitem In_dict next_nid v.
End Reaching.

#[global] Instance DefinitelyReachingPTFA : DefinitelyPTFA := {|
  pre_loop_init := Reaching.pre_loop_init;
  check_node := Reaching.check_node;
  next_nodes := Reaching.next_nodes;
  can_propagate := Reaching.can_propagate;
  propagate := Reaching.propagate
|}.

(** [check_pattern] of [main.py] *)
Definition check_pattern (cfg : CFG) (nid : Z) : bool :=
  bool_decide (get_type cfg nid = "Pattern"%string).

End main.

(** ** The two analyses, indexed by the direction of flow

    The subclasses differ only in which dictionary is the node's own
    ("near") fact and which is the neighbour-facing ("far") one, in the
    seeding category and in the adjacency they follow. *)

Inductive flow : Type := Backward | Forward.

Definition analysis (d : flow) : ptfa.DefinitelyPTFA :=
  match d with
  | Backward => ptfa.DefinitelyReachablePTFA
  | Forward => ptfa.DefinitelyReachingPTFA
  end.

Definition main_analysis (d : flow) : main.DefinitelyPTFA :=
  match d with
  | Backward => main.DefinitelyReachablePTFA
  | Forward => main.DefinitelyReachingPTFA
  end.

Definition near_id (d : flow) : dict_id :=
  match d with Backward => In_dict | Forward => Out_dict end.

Definition far_id (d : flow) : dict_id :=
  match d with Backward => Out_dict | Forward => In_dict end.

Definition near (d : flow) (s : State) : gmap Z bool := dict (near_id d) s.
Definition far (d : flow) (s : State) : gmap Z bool := dict (far_id d) s.

Definition seed_type (d : flow) : string :=
  match d with Backward => "Exit" | Forward => "Entry" end.

Definition seeds (d : flow) (cfg : CFG) : list Z :=
  filter (λ nid, get_type cfg nid = seed_type d) (get_node_ids cfg).

Definition adjacent (d : flow) (cfg : CFG) (nid : Z) : list Z :=
  match d with
  | Backward => get_any_parents cfg nid
  | Forward => get_any_children cfg nid
  end.

(** A state given by its direction-relative components. *)
Definition mk (d : flow) (vis : gset Z) (wl : list Z)
    (nr fr : gmap Z bool) (tr : list event) : State :=
  match d with
  | Backward => mkState vis wl nr fr tr
  | Forward => mkState vis wl fr nr tr
  end.

(** The state after a seed has been produced. *)
Definition seeded (d : flow) (e : Z) (s : State) : State :=
  mk d ({[e]} ∪ visited s) (e :: worklist s) (near d s) (<[e := false]> (far d s))
    (EPush e :: EWrite (far_id d) e (far d s !! e) false :: trace s).

(** The state after [nid] has been popped and checked, [b] being its far
    fact: the predicate is called only when [b] is false. *)
Definition checked (d : flow) (p : Z → bool) (nid : Z) (wl : list Z) (b : bool)
    (s : State) : State :=
  mk d (visited s) wl (<[nid := b || p nid]> (near d s)) (far d s)
    (EWrite (near_id d) nid (near d s !! nid) (b || p nid) ::
     (if b then [] else [ECall nid]) ++ ECheck nid :: EPop nid :: trace s).

(** The state after the fact [a] has been propagated to [m] and [m] pushed. *)
Definition pushed (d : flow) (m : Z) (a : bool) (s : State) : State :=
  mk d ({[m]} ∪ visited s) (m :: worklist s) (near d s) (<[m := a]> (far d s))
    (EPush m :: EWrite (far_id d) m (far d s !! m) a :: trace s).

(** ** Well-formed graphs *)

(** The adjacency followed by direction [d] stays inside the node ids. *)
Definition closed (d : flow) (cfg : CFG) : Prop :=
  ∀ k m, k ∈ get_node_ids cfg → m ∈ adjacent d cfg k → m ∈ get_node_ids cfg.

Definition closedb (d : flow) (cfg : CFG) : bool :=
  forallb (λ k, forallb (λ m, bool_decide (m ∈ get_node_ids cfg)) (adjacent d cfg k))
    (get_node_ids cfg).

(** Every node id referenced by adjacency exists in the node-id set. *)
Definition well_formed (cfg : CFG) : bool :=
  closedb Backward cfg && closedb Forward cfg.

(** The exception a run can raise: a [KeyError] for a neighbour [m] of a
    node [k] that is not itself a node id. *)
Definition dangling (d : flow) (cfg : CFG) (e : exn) : Prop :=
  ∃ k m, e = KeyError m ∧ k ∈ get_node_ids cfg ∧ m ∈ adjacent d cfg k
         ∧ m ∉ get_node_ids cfg.

(** ** Invariants of a run *)

(** A write leaves the value unchanged or lowers it from True to False. *)
Definition mono_event (e : event) : Prop :=
  match e with
  | EWrite _ _ old new => old = Some new ∨ (old = Some true ∧ new = false)
  | _ => True
  end.

Definition count_ev (f : event → bool) (tr : list event) : nat :=
  length (filter (λ e, f e = true) tr).

Definition is_push (k : Z) (e : event) : bool :=
  match e with EPush n => bool_decide (n = k) | _ => false end.
Definition is_pop (k : Z) (e : event) : bool :=
  match e with EPop n => bool_decide (n = k) | _ => false end.
Definition is_check (k : Z) (e : event) : bool :=
  match e with ECheck n => bool_decide (n = k) | _ => false end.
Definition is_call (e : event) : bool :=
  match e with ECall _ => true | _ => false end.

Definition occurrences (k : Z) (l : list Z) : nat :=
  length (filter (λ n, n = k) l).

(** What holds between any two steps of a run; [done] are the seeds
    produced so far. *)
Record winv (d : flow) (cfg : CFG) (p : Z → bool) (done : list Z) (s : State) : Prop := {
  w_dom_near : ∀ k, is_Some (near d s !! k) ↔ k ∈ get_node_ids cfg;
  w_dom_far : ∀ k, is_Some (far d s !! k) ↔ k ∈ get_node_ids cfg;
  w_worklist : ∀ k, k ∈ worklist s → k ∈ visited s;
  w_visited : ∀ k, k ∈ visited s → k ∈ get_node_ids cfg;
  w_far_visited : ∀ k, far d s !! k = Some false → k ∈ visited s;
  w_near_far : ∀ k, near d s !! k = Some false → far d s !! k = Some false ∧ p k = false;
  w_done : ∀ k, k ∈ done → far d s !! k = Some false;
  w_trace : Forall mono_event (trace s);
  w_pushes : ∀ k, count_ev (is_push k) (trace s)
                  = (count_ev (is_pop k) (trace s) + occurrences k (worklist s))%nat;
  w_pops : ∀ k, count_ev (is_pop k) (trace s) = count_ev (is_check k) (trace s)
}.

(** The node-check rule changes nothing at [k]. *)
Definition node_ok (d : flow) (p : Z → bool) (s : State) (k : Z) : Prop :=
  near d s !! k = (λ b, b || p k) <$> far d s !! k.

(** The propagation guard fails on the edge from [k] to [m]. *)
Definition edge_ok (d : flow) (s : State) (k m : Z) : Prop :=
  near d s !! k = Some false → far d s !! m = Some false.

Definition consistent (d : flow) (cfg : CFG) (p : Z → bool) (s : State) (k : Z) : Prop :=
  node_ok d p s k ∧ ∀ m, m ∈ adjacent d cfg k → edge_ok d s k m.

(** At the head of the [while] loop: all nodes off the worklist are settled. *)
Definition finv (d : flow) (cfg : CFG) (p : Z → bool) (s : State) : Prop :=
  ∀ k, k ∉ worklist s → consistent d cfg p s k.

(** Inside the [for] loop over the neighbours of [nid], [rest] remaining. *)
Definition linv (d : flow) (cfg : CFG) (p : Z → bool) (nid : Z) (rest : list Z)
    (s : State) : Prop :=
  (∀ k, k ∉ worklist s → k ≠ nid → consistent d cfg p s k) ∧
  (nid ∈ worklist s ∨
   (node_ok d p s nid ∧ ∀ m, m ∈ adjacent d cfg nid → m ∈ rest ∨ edge_ok d s nid m)).

(** The returned pair of mappings is a fixpoint of both rules. *)
Definition fixpoint (d : flow) (cfg : CFG) (p : Z → bool) (s : State) : Prop :=
  ∀ k, consistent d cfg p s k.

(** ** The termination measure *)

Definition weight (d : flow) (s : State) (k : Z) : nat :=
  ((if bool_decide (k ∈ visited s) then 0 else 1) +
   (match far d s !! k with Some true => 1 | _ => 0 end))%nat.

Definition total (w : Z → nat) (l : list Z) : nat :=
  foldr (λ k n, (w k + n)%nat) 0%nat l.

Definition potential (d : flow) (cfg : CFG) (s : State) : nat :=
  (length (worklist s) + total (weight d s) (get_node_ids cfg))%nat.

(** Fuel that is enough for every [while] loop of a run on [cfg]. *)
Definition enough_fuel (cfg : CFG) : nat :=
  (2 * length (get_node_ids cfg) + 2)%nat.

(** What a finished call looks like. *)
Definition result_of (s : State) : gmap Z bool * gmap Z bool := (in_dict s, out_dict s).
(** ** Example graphs *)

(** An engine object on which [__call__] has not run yet. *)
Definition fresh : State := mkState ∅ [] ∅ ∅ [].

Definition pick {A} (default : A) (table : list (Z * A)) (nid : Z) : A :=
  match list_find (λ kv, kv.1 = nid) table with
  | Some (_, (_, a)) => a
  | None => default
  end.

(** The linear chain [Entry(1) → A(2) → Exit(3)]. *)
Definition chain_cfg : CFG :=
  mkCFG [1; 2; 3]
    (pick "A"%string [(1, "Entry"%string); (3, "Exit"%string)])
    (pick [] [(2, [1]); (3, [2])])
    (pick [] [(1, [2]); (2, [3])]).

(** A graph with a cycle: [Entry(1) → 2 ⇄ 3 → Exit(4)]. *)
Definition cyclic_cfg : CFG :=
  mkCFG [1; 2; 3; 4]
    (pick "Stmt"%string [(1, "Entry"%string); (4, "Exit"%string)])
    (pick [] [(2, [1; 3]); (3, [2]); (4, [3])])
    (pick [] [(1, [2]); (2, [3]); (3, [2; 4])]).

(** A diamond in which one node has id [0]:
    [Entry(3) → {1, 0} → Exit(2)]. *)
Definition zero_cfg : CFG :=
  mkCFG [0; 1; 2; 3]
    (pick "Stmt"%string [(3, "Entry"%string); (2, "Exit"%string)])
    (pick [] [(2, [1; 0]); (1, [3]); (0, [3])])
    (pick [] [(3, [1; 0]); (1, [2]); (0, [2])]).

(** A malformed graph: [Entry(1) → Exit(2)] where both adjacency lists
    also mention [9], which is not a node id. *)
Definition dangling_cfg : CFG :=
  mkCFG [1; 2]
    (pick "Stmt"%string [(1, "Entry"%string); (2, "Exit"%string)])
    (pick [] [(2, [1; 9])])
    (pick [] [(1, [2; 9])]).

(** A single isolated node typed [Exit]. *)
Definition lonely_exit_cfg : CFG :=
  mkCFG [1] (λ _, "Exit"%string) (λ _, []) (λ _, []).

(** A single isolated node typed [Entry]. *)
Definition lonely_entry_cfg : CFG :=
  mkCFG [1] (λ _, "Entry"%string) (λ _, []) (λ _, []).

(** A graph with neither an [Entry] nor an [Exit] node. *)
Definition unseeded_cfg : CFG :=
  mkCFG [1; 2] (λ _, "Stmt"%string) (pick [] [(2, [1])]) (pick [] [(1, [2])]).

Definition never : PatternCheck := λ _ _, false.
Definition always : PatternCheck := λ _ _, true.

(** ** What the facts mean

    [exposed d cfg p k]: the far fact of [k] can be lowered.  Either [k]
    is a seed, or [k] is a neighbour, in the direction the analysis
    follows, of an exposed node at which the predicate fails.  For the
    backward analysis this is a path from [k] to an Exit node on which
    the predicate fails at every node after [k]. *)
Inductive exposed (d : flow) (cfg : CFG) (p : Z → bool) : Z → Prop :=
| exposed_seed e : e ∈ seeds d cfg → exposed d cfg p e
| exposed_step c m :
    exposed d cfg p c → p c = false → m ∈ adjacent d cfg c → exposed d cfg p m.

(** [reached d cfg k]: [k] is a seed or can be reached from a seed along
    the adjacency the analysis follows, whatever the predicate. *)
Inductive reached (d : flow) (cfg : CFG) : Z → Prop :=
| reached_seed e : e ∈ seeds d cfg → reached d cfg e
| reached_step c m : reached d cfg c → m ∈ adjacent d cfg c → reached d cfg m.

Definition is_any_push (e : event) : bool :=
  match e with EPush _ => true | _ => false end.
Definition is_any_check (e : event) : bool :=
  match e with ECheck _ => true | _ => false end.

(** Fuel that is enough for every loop of a run of [main.py], where a
    loop may start with nodes left on the worklist. *)
Definition main_enough_fuel (cfg : CFG) : nat :=
  (3 * length (get_node_ids cfg) + 2)%nat.

(** The part of the invariant that does not count events; it also holds
    in [main.py], where a popped node may stay unchecked. *)
Record cinv (d : flow) (cfg : CFG) (p : Z → bool) (ds : list Z) (s : State) : Prop := {
  c_dom_near : ∀ k, is_Some (near d s !! k) ↔ k ∈ get_node_ids cfg;
  c_dom_far : ∀ k, is_Some (far d s !! k) ↔ k ∈ get_node_ids cfg;
  c_worklist : ∀ k, k ∈ worklist s → k ∈ visited s;
  c_visited : ∀ k, k ∈ visited s → k ∈ get_node_ids cfg;
  c_far_visited : ∀ k, far d s !! k = Some false → k ∈ visited s;
  c_near_far : ∀ k, near d s !! k = Some false → far d s !! k = Some false ∧ p k = false;
  c_done : ∀ k, k ∈ ds → far d s !! k = Some false;
  c_trace : Forall mono_event (trace s)
}.

(** Every False far fact is justified, the work done so far is bounded,
    and the predicate has been called at exposed nodes only; [n] is the
    number of seeds produced so far. *)
Record jinv (d : flow) (cfg : CFG) (p : Z → bool) (n : nat) (s : State) : Prop := {
  j_far : ∀ k, far d s !! k = Some false → exposed d cfg p k;
  j_bound : (count_ev is_any_push (trace s) + total (weight d s) (get_node_ids cfg)
             ≤ 2 * length (get_node_ids cfg) + n)%nat;
  j_checks : (count_ev is_any_check (trace s) + length (worklist s)
              ≤ count_ev is_any_push (trace s))%nat;
  j_calls : (count_ev is_call (trace s) ≤ count_ev is_any_check (trace s))%nat;
  j_called : ∀ k, ECall k ∈ trace s → exposed d cfg p k
}.

(** Every visited node off the worklist has had all its neighbours
    visited. *)
Definition vinv (d : flow) (cfg : CFG) (s : State) : Prop :=
  ∀ k, k ∈ visited s → k ∉ worklist s →
       ∀ m, m ∈ adjacent d cfg k → m ∈ visited s.

(** The same inside the [for] loop over the neighbours of [nid]. *)
Definition vlinv (d : flow) (cfg : CFG) (nid : Z) (rest : list Z) (s : State) : Prop :=
  (∀ k, k ∈ visited s → k ∉ worklist s → k ≠ nid →
        ∀ m, m ∈ adjacent d cfg k → m ∈ visited s) ∧
  (nid ∈ worklist s ∨ ∀ m, m ∈ adjacent d cfg nid → m ∈ rest ∨ m ∈ visited s).

(** The state of [main.py] after a falsy node id has been popped. *)
Definition popped (nid : Z) (wl : list Z) (s : State) : State :=
  mkState (visited s) wl (in_dict s) (out_dict s) (EPop nid :: trace s).

(** The graph with every edge reversed and Entry and Exit exchanged. *)
Definition swap_type (t : string) : string :=
  if decide (t = "Entry"%string) then "Exit"%string
  else if decide (t = "Exit"%string) then "Entry"%string
  else t.

Definition reverse_cfg (cfg : CFG) : CFG :=
  mkCFG (get_node_ids cfg) (λ nid, swap_type (get_type cfg nid))
    (get_any_children cfg) (get_any_parents cfg).

(** Two graphs with the same nodes, types and neighbours, listed in any
    order. *)
Definition same_graph (cfg cfg' : CFG) : bool :=
  bool_decide (list_to_set (get_node_ids cfg) =@{gset Z} list_to_set (get_node_ids cfg'))
  && forallb (λ k,
       bool_decide (get_type cfg k = get_type cfg' k)
       && bool_decide (list_to_set (get_any_parents cfg k)
                       =@{gset Z} list_to_set (get_any_parents cfg' k))
       && bool_decide (list_to_set (get_any_children cfg k)
                       =@{gset Z} list_to_set (get_any_children cfg' k)))
       (get_node_ids cfg).

(** The chain [Entry(1) → Pattern(2) → Exit(3)], and the same graph with
    its node ids listed in another order. *)
Definition pattern_cfg : CFG :=
  mkCFG [1; 2; 3]
    (pick "Stmt"%string
       [(1, "Entry"%string); (2, "Pattern"%string); (3, "Exit"%string)])
    (pick [] [(2, [1]); (3, [2])])
    (pick [] [(1, [2]); (2, [3])]).

Definition pattern_cfg_shuffled : CFG :=
  mkCFG [3; 1; 2]
    (pick "Stmt"%string
       [(3, "Exit"%string); (2, "Pattern"%string); (1, "Entry"%string)])
    (pick [] [(3, [2]); (2, [1])])
    (pick [] [(2, [3]); (1, [2])]).

(** The predicate that holds at node [n] only. *)
Definition only_at (n : Z) : PatternCheck := λ _ nid, bool_decide (nid = n).

(** ** A predicate that may raise

    [PatternCheck] is any Python callable: it may raise instead of
    returning.  The engines below are the loops of the two files again,
    with the predicate call as the one place that differs: the call
    either returns a boolean or raises, and the exception travels like any
    other.  In [main.py] the node check runs inside
    [with suppress(IndexError)]; in [ptfa.py] nothing catches it. *)

Definition RaisingCheck : Type := CFG → Z → exn + bool.

(** [check_pattern(self.cfg, nid)] for a predicate that may raise. *)
Definition call_raising (check_pattern : RaisingCheck) (cfg : CFG) (nid : Z) : M bool :=
  λ s, match check_pattern cfg nid with
       | inr b => Val b (emit (ECall nid) s)
       | inl e => Exc e (emit (ECall nid) s)
       end.

(** [check_node] of the two subclasses. *)
Definition check_node_raising (d : flow) (check_pattern : RaisingCheck) (cfg : CFG)
    (nid : Z) : M unit :=
  match d with
  | Backward =>
      o ← getitem Out_dict nid;
      v ← or_else o (call_raising check_pattern cfg nid);
      setitem In_dict nid v
  | Forward =>
      i ← getitem In_dict nid;
      v ← or_else i (call_raising check_pattern cfg nid);
      setitem Out_dict nid v
  end.

(** The loop of [ptfa.py]: [while self.worklist: ...]. *)
Fixpoint while_worklist_raising (d : flow) (check_pattern : RaisingCheck) (cfg : CFG)
    (fuel : nat) : M unit :=
  match fuel with
  | O => timeout
  | S fuel' =>
      more ← worklist_nonempty;
      if more : bool then
        nid ← worklist_pop;
        mark (ECheck nid);;
        check_node_raising d check_pattern cfg nid;;
        for_each (ptfa.next_nodes cfg nid (DefinitelyPTFA := analysis d))
          (ptfa.visit_next nid (H := analysis d));;
        while_worklist_raising d check_pattern cfg fuel'
      else ret tt
  end.

(** [__call__] of [ptfa.py]. *)
Definition ptfa_call_raising (d : flow) (check_pattern : RaisingCheck) (cfg : CFG)
    (fuel : nat) : M (gmap Z bool * gmap Z bool) :=
  reset cfg;;
  for_each (ptfa.pre_loop_init cfg (DefinitelyPTFA := analysis d))
    (λ seed, seed;; while_worklist_raising d check_pattern cfg fuel);;
  return_dicts.

(** The loop of [main.py]: [while nid := self.worklist.pop(): ...]. *)
Fixpoint while_pop_raising (d : flow) (cfg : CFG) (check_pattern : RaisingCheck)
    (fuel : nat) : M unit :=
  match fuel with
  | O => timeout
  | S fuel' =>
      nid ← worklist_pop;
      if bool_decide (nid ≠ 0) then
        mark (ECheck nid);;
        check_node_raising d check_pattern cfg nid;;
        for_each (main.next_nodes cfg nid (DefinitelyPTFA := main_analysis d))
          (main.visit_next nid (H := main_analysis d));;
        while_pop_raising d cfg check_pattern fuel'
      else ret tt
  end.

(** [__call__] of [main.py]. *)
Definition main_call_raising (d : flow) (cfg : CFG) (check_pattern : RaisingCheck)
    (fuel : nat) : M (gmap Z bool * gmap Z bool) :=
  reset cfg;;
  for_each (main.pre_loop_init cfg (DefinitelyPTFA := main_analysis d))
    (λ seed, seed;; suppress_IndexError (while_pop_raising d cfg check_pattern fuel));;
  return_dicts.

(** A predicate that returns at every node id of the graph. *)
Definition returns_on (check_pattern : RaisingCheck) (cfg : CFG) : Prop :=
  ∀ k, k ∈ get_node_ids cfg → ∃ b, check_pattern cfg k = inr b.

(** The boolean a raising predicate returns, False where it raises. *)
Definition answer (check_pattern : RaisingCheck) : PatternCheck :=
  λ cfg nid, match check_pattern cfg nid with inr b => b | inl _ => false end.

(** A predicate that raises [IndexError] at node [n] and is False
    elsewhere. *)
Definition raises_at (n : Z) : RaisingCheck :=
  λ _ nid, if bool_decide (nid = n) then inl IndexError else inr false.

(** A total predicate seen as one that never raises. *)
Definition never_raises (check_pattern : PatternCheck) : RaisingCheck :=
  λ cfg nid, inr (check_pattern cfg nid).

(** * Proofs *)

(** ** The direction-relative view of a state *)

Section views.
Variable d : flow.

Lemma visited_mk v w n f t : visited (mk d v w n f t) = v.
Proof. by destruct d. Qed.
Lemma worklist_mk v w n f t : worklist (mk d v w n f t) = w.
Proof. by destruct d. Qed.
Lemma near_mk v w n f t : near d (mk d v w n f t) = n.
Proof. by destruct d. Qed.
Lemma far_mk v w n f t : far d (mk d v w n f t) = f.
Proof. by destruct d. Qed.
Lemma trace_mk v w n f t : trace (mk d v w n f t) = t.
Proof. by destruct d. Qed.
Lemma mk_eta s : mk d (visited s) (worklist s) (near d s) (far d s) (trace s) = s.
Proof. by destruct d, s. Qed.
End views.

Ltac views :=
  unfold seeded, checked, pushed in *;
  rewrite ?visited_mk, ?worklist_mk, ?near_mk, ?far_mk, ?trace_mk in *.

(** ** What the methods compute, in direction-relative terms *)

Ltac prims :=
  unfold mbind, M_bind, bind, mret, M_ret, ret, getitem, setitem, or_else,
    not_in_visited, visited_add, worklist_append, worklist_nonempty, worklist_pop,
    mark, call_pattern, emit, set_dict in *; cbn in *.

Section equations.
Variable d : flow.
Variable check_pattern : PatternCheck.
Variable cfg : CFG.

Lemma pre_loop_init_eq :
  ptfa.pre_loop_init cfg (DefinitelyPTFA := analysis d)
  = (λ e s, Val tt (seeded d e s)) <$> seeds d cfg.
Proof. by destruct d. Qed.

Lemma next_nodes_eq nid :
  ptfa.next_nodes cfg nid (DefinitelyPTFA := analysis d) = adjacent d cfg nid.
Proof. by destruct d. Qed.

Lemma visit_next_eq nid m s a b :
  near d s !! nid = Some a → far d s !! m = Some b →
  ptfa.visit_next nid m s (H := analysis d)
  = Val tt (if bool_lt a b || bool_decide (m ∉ visited s) then pushed d m a s else s).
Proof.
  destruct d; cbn; intros Ha Hb;
    unfold ptfa.visit_next, ptfa.Reachable.can_propagate, ptfa.Reaching.can_propagate,
      ptfa.Reachable.propagate, ptfa.Reaching.propagate; prims;
    rewrite Ha, Hb; cbn;
    destruct (bool_lt a b); cbn; rewrite ?Ha, ?Hb; try done;
    destruct (bool_decide (m ∉ visited s)); cbn; rewrite ?Ha, ?Hb; done.
Qed.

Lemma visit_next_missing nid m s a :
  near d s !! nid = Some a → far d s !! m = None →
  ptfa.visit_next nid m s (H := analysis d) = Exc (KeyError m) s.
Proof.
  destruct d; cbn; intros Ha Hb;
    unfold ptfa.visit_next, ptfa.Reachable.can_propagate, ptfa.Reaching.can_propagate;
    prims; by rewrite Ha, Hb.
Qed.

Lemma while_worklist_nil fuel s :
  worklist s = [] →
  ptfa.while_worklist check_pattern cfg (S fuel) s (H := analysis d) = Val tt s.
Proof.
  intros Hw. cbn. prims. by rewrite Hw.
Qed.

Lemma while_worklist_cons fuel s nid wl b :
  worklist s = nid :: wl → far d s !! nid = Some b →
  ptfa.while_worklist check_pattern cfg (S fuel) s (H := analysis d)
  = (for_each (adjacent d cfg nid) (ptfa.visit_next nid (H := analysis d));;
     ptfa.while_worklist check_pattern cfg fuel (H := analysis d))
      (checked d (check_pattern cfg) nid wl b s).
Proof.
  intros Hw Hb. rewrite <- next_nodes_eq.
  destruct d; cbn in Hb |- *;
    unfold ptfa.Reachable.check_node, ptfa.Reaching.check_node; prims;
    repeat (rewrite ?Hw, ?Hb; cbn); by destruct b.
Qed.
End equations.

(** ** Counting and summing *)

Lemma count_ev_cons f e tr :
  count_ev f (e :: tr) = ((if f e then 1 else 0) + count_ev f tr)%nat.
Proof.
  unfold count_ev. rewrite filter_cons.
  destruct (f e); case_decide; cbn; congruence.
Qed.

Lemma count_ev_app f tr1 tr2 :
  count_ev f (tr1 ++ tr2) = (count_ev f tr1 + count_ev f tr2)%nat.
Proof. unfold count_ev. by rewrite filter_app, length_app. Qed.

Lemma occurrences_cons k n l :
  occurrences k (n :: l) = ((if bool_decide (n = k) then 1 else 0) + occurrences k l)%nat.
Proof.
  unfold occurrences. rewrite filter_cons.
  case_decide; case_bool_decide; cbn; congruence.
Qed.

Lemma total_cons w k l : total w (k :: l) = (w k + total w l)%nat.
Proof. done. Qed.

Lemma total_le w w' l :
  (∀ k, w' k ≤ w k)%nat → (total w' l ≤ total w l)%nat.
Proof.
  intros Hle. induction l as [|k l IH]; [done|].
  rewrite !total_cons. specialize (Hle k). lia.
Qed.

Lemma total_lt w w' l m :
  (∀ k, w' k ≤ w k)%nat → m ∈ l → (w' m < w m)%nat → (total w' l < total w l)%nat.
Proof.
  intros Hle Hin Hlt. induction l as [|k l IH].
  - by apply not_elem_of_nil in Hin.
  - rewrite !total_cons. apply elem_of_cons in Hin as [->|Hin].
    + pose proof (total_le w w' l Hle). lia.
    + specialize (IH Hin). specialize (Hle k). lia.
Qed.

Lemma total_bound w l c :
  (∀ k, w k ≤ c)%nat → (total w l ≤ c * length l)%nat.
Proof.
  intros Hle. induction l as [|k l IH]; [cbn; lia|].
  rewrite total_cons. cbn [length]. specialize (Hle k). lia.
Qed.

Lemma weight_le_2 d s k : (weight d s k ≤ 2)%nat.
Proof.
  unfold weight. case_bool_decide; destruct (far d s !! k) as [[]|]; lia.
Qed.

(** ** The initial mappings *)

Lemma lookup_foldl_true (l : list Z) (acc : gmap Z bool) k :
  foldl (λ m k, <[k := true]> m) acc l !! k
  = if bool_decide (k ∈ l) then Some true else acc !! k.
Proof.
  revert acc. induction l as [|n l IH]; intros acc; cbn.
  - by rewrite bool_decide_eq_false_2 by apply not_elem_of_nil.
  - rewrite IH. destruct (decide (k = n)) as [->|Hne].
    + rewrite lookup_insert_eq.
      rewrite (bool_decide_eq_true_2 (n ∈ n :: l)) by apply list_elem_of_here.
      by case_bool_decide.
    + rewrite lookup_insert_ne by done.
      case_bool_decide as H1; case_bool_decide as H2; try done.
      * exfalso. apply H2. by apply list_elem_of_further.
      * exfalso. apply elem_of_cons in H2 as [?|?]; done.
Qed.

Lemma lookup_all_true l k :
  all_true l !! k = if bool_decide (k ∈ l) then Some true else None.
Proof. unfold all_true. by rewrite lookup_foldl_true, lookup_empty. Qed.

Lemma lookup_all_true_Some l k b : all_true l !! k = Some b → k ∈ l ∧ b = true.
Proof. rewrite lookup_all_true. case_bool_decide; naive_solver. Qed.

Lemma dom_all_true l : dom (all_true l) = list_to_set l.
Proof.
  apply set_eq. intros k. rewrite elem_of_dom, lookup_all_true, elem_of_list_to_set.
  case_bool_decide; split; intros H'; try done; by destruct H'.
Qed.

(** ** Preservation of the invariants by the steps of a run *)

Ltac counts :=
  rewrite ?count_ev_cons, ?count_ev_app, ?occurrences_cons;
  cbn [is_push is_pop is_check count_ev filter length];
  repeat case_bool_decide; subst; try congruence; try lia.

Section preservation.
Variable d : flow.
Variable cfg : CFG.
Variable p : Z → bool.

Lemma reset_eq (a : gmap Z bool) : mkState ∅ [] a a [] = mk d ∅ [] a a [].
Proof. by destruct d. Qed.

Lemma winv_weaken ds ds' s :
  (∀ k, k ∈ ds' → k ∈ ds) → winv d cfg p ds s → winv d cfg p ds' s.
Proof. intros Hsub []; split; auto. Qed.

Lemma winv_reset :
  winv d cfg p []
    (mkState ∅ [] (all_true (get_node_ids cfg)) (all_true (get_node_ids cfg)) []).
Proof.
  rewrite reset_eq. split; views.
  - intros k. rewrite lookup_all_true.
    case_bool_decide; split; try done; by intros [].
  - intros k. rewrite lookup_all_true.
    case_bool_decide; split; try done; by intros [].
  - by intros k ?%elem_of_nil.
  - intros k. set_solver.
  - by intros k [_ ?]%lookup_all_true_Some.
  - by intros k [_ ?]%lookup_all_true_Some.
  - by intros k ?%elem_of_nil.
  - constructor.
  - done.
  - done.
Qed.

Lemma finv_reset :
  finv d cfg p
    (mkState ∅ [] (all_true (get_node_ids cfg)) (all_true (get_node_ids cfg)) []).
Proof.
  rewrite reset_eq. intros k _. split.
  - unfold node_ok. views. rewrite lookup_all_true. by case_bool_decide.
  - intros m _. unfold edge_ok. views. by intros [_ ?]%lookup_all_true_Some.
Qed.

Lemma winv_seeded ds s e :
  winv d cfg p ds s → e ∈ get_node_ids cfg → winv d cfg p (e :: ds) (seeded d e s).
Proof.
  intros [Hdn Hdf Hwl Hvis Hfv Hnf Hdone Htr Hpu Hpo] He. split; views.
  - done.
  - intros k. rewrite lookup_insert_is_Some, Hdf.
    split; [by intros [<-|[_ ?]]|]. destruct (decide (e = k)); auto.
  - intros k [->|?]%elem_of_cons; [by apply elem_of_union_l, elem_of_singleton|].
    apply elem_of_union_r. auto.
  - intros k [->%elem_of_singleton|?]%elem_of_union; auto.
  - intros k. destruct (decide (k = e)) as [->|].
    + intros _. by apply elem_of_union_l, elem_of_singleton.
    + rewrite lookup_insert_ne by done. intros ?. apply elem_of_union_r. auto.
  - intros k Hk. destruct (Hnf k Hk) as [Hf Hp]. split; [|done].
    destruct (decide (k = e)) as [->|]; [by rewrite lookup_insert_eq|].
    by rewrite lookup_insert_ne.
  - intros k. destruct (decide (k = e)) as [->|]; [by rewrite lookup_insert_eq|].
    rewrite lookup_insert_ne by done. intros [?|?]%elem_of_cons; [done|auto].
  - constructor; [done|]. constructor; [|done]. cbn.
    apply Hdf in He as [[] ->]; auto.
  - intros k. specialize (Hpu k). counts.
  - intros k. specialize (Hpo k). counts.
Qed.

Lemma finv_seeded s e : finv d cfg p s → finv d cfg p (seeded d e s).
Proof.
  intros Hf k Hk. views. apply not_elem_of_cons in Hk as [Hne Hk].
  destruct (Hf k Hk) as [Hn He]. split.
  - unfold node_ok in *. views. by rewrite lookup_insert_ne.
  - intros m Hm. specialize (He m Hm). unfold edge_ok in *. views.
    destruct (decide (m = e)) as [->|]; [by rewrite lookup_insert_eq|].
    by rewrite lookup_insert_ne.
Qed.

Lemma potential_seeded s e :
  worklist s = [] →
  (potential d cfg (seeded d e s) < enough_fuel cfg)%nat.
Proof.
  intros Hw. unfold potential, enough_fuel. views. rewrite Hw. cbn [length].
  pose proof (total_bound (weight d (mk d ({[e]} ∪ visited s) [e] (near d s)
    (<[e:=false]> (far d s))
    (EPush e :: EWrite (far_id d) e (far d s !! e) false :: trace s)))
    (get_node_ids cfg) 2 (weight_le_2 _ _)). lia.
Qed.

(** *** Popping and checking a node *)

Lemma winv_checked ds s nid wl b :
  winv d cfg p ds s → worklist s = nid :: wl → far d s !! nid = Some b →
  winv d cfg p ds (checked d p nid wl b s).
Proof.
  intros [Hdn Hdf Hwl Hvis Hfv Hnf Hdone Htr Hpu Hpo] Hw Hb.
  assert (Hin : nid ∈ get_node_ids cfg).
  { apply Hvis, Hwl. rewrite Hw. apply list_elem_of_here. }
  split; views.
  - intros k. rewrite lookup_insert_is_Some, Hdn.
    split; [by intros [<-|[_ ?]]|]. destruct (decide (nid = k)); auto.
  - done.
  - intros k Hk. apply Hwl. rewrite Hw. by apply list_elem_of_further.
  - done.
  - done.
  - intros k. destruct (decide (k = nid)) as [->|].
    + rewrite lookup_insert_eq, Hb. intros [= Hor].
      apply orb_false_iff in Hor as [-> ->]. done.
    + rewrite lookup_insert_ne by done. auto.
  - done.
  - constructor.
    + cbn. apply Hdn in Hin as [a Ha]. rewrite Ha. destruct a; [|left].
      * destruct (b || p nid); auto.
      * destruct (Hnf nid Ha) as [Hf Hp]. rewrite Hb in Hf.
        injection Hf as ->. by rewrite Hp.
    + apply Forall_app. split; [by destruct b; repeat constructor|].
      by repeat constructor.
  - intros k. specialize (Hpu k). rewrite Hw in Hpu. revert Hpu.
    destruct b; cbn [app]; counts.
  - intros k. specialize (Hpo k). destruct b; cbn [app]; counts.
Qed.

Lemma linv_checked s nid wl b :
  finv d cfg p s → worklist s = nid :: wl → far d s !! nid = Some b →
  linv d cfg p nid (adjacent d cfg nid) (checked d p nid wl b s).
Proof.
  intros Hf Hw Hb. split; views.
  - intros k Hk Hne. assert (Hk' : k ∉ worklist s).
    { rewrite Hw. by apply not_elem_of_cons. }
    destruct (Hf k Hk') as [Hn He]. split.
    + unfold node_ok in *. views. by rewrite lookup_insert_ne.
    + intros m Hm. specialize (He m Hm). unfold edge_ok in *. views.
      by rewrite lookup_insert_ne.
  - right. split.
    + unfold node_ok. views. by rewrite lookup_insert_eq, Hb.
    + intros m Hm. by left.
Qed.

Lemma potential_checked s nid wl b :
  worklist s = nid :: wl →
  S (potential d cfg (checked d p nid wl b s)) = potential d cfg s.
Proof.
  intros Hw. unfold potential. views. rewrite Hw. cbn [length].
  f_equal. f_equal. unfold weight. views. done.
Qed.

(** *** Propagating to a neighbour *)

Lemma winv_pushed ds s m a :
  winv d cfg p ds s → far d s !! m = Some true →
  winv d cfg p ds (pushed d m a s).
Proof.
  intros [Hdn Hdf Hwl Hvis Hfv Hnf Hdone Htr Hpu Hpo] Hm.
  assert (Hin : m ∈ get_node_ids cfg) by (apply Hdf; eauto).
  split; views.
  - done.
  - intros k. rewrite lookup_insert_is_Some, Hdf.
    split; [by intros [<-|[_ ?]]|]. destruct (decide (m = k)); auto.
  - intros k [->|?]%elem_of_cons; apply elem_of_union; [left|right; auto].
    by apply elem_of_singleton.
  - intros k [->%elem_of_singleton|?]%elem_of_union; auto.
  - intros k. destruct (decide (k = m)) as [->|].
    + intros _. apply elem_of_union. left. by apply elem_of_singleton.
    + rewrite lookup_insert_ne by done. intros ?. apply elem_of_union. auto.
  - intros k Hk. destruct (Hnf k Hk) as [Hf Hp].
    destruct (decide (k = m)) as [->|]; [congruence|].
    by rewrite lookup_insert_ne.
  - intros k Hk. specialize (Hdone k Hk).
    destruct (decide (k = m)) as [->|]; [congruence|].
    by rewrite lookup_insert_ne.
  - constructor; [done|]. constructor; [|done]. cbn. rewrite Hm.
    destruct a; auto.
  - intros k. specialize (Hpu k). counts.
  - intros k. specialize (Hpo k). counts.
Qed.

Lemma linv_pushed s nid m rest a :
  linv d cfg p nid (m :: rest) s →
  near d s !! nid = Some a → far d s !! m = Some true →
  linv d cfg p nid rest (pushed d m a s).
Proof.
  intros [Hothers Hnid] Ha Hm. split; views.
  - intros k [Hkm Hk]%not_elem_of_cons Hne.
    destruct (Hothers k Hk Hne) as [Hn He]. split.
    + unfold node_ok in *. views. by rewrite lookup_insert_ne.
    + intros m' Hm'. specialize (He m' Hm'). unfold edge_ok in *. views.
      intros Hk'. specialize (He Hk').
      destruct (decide (m' = m)) as [->|]; [congruence|].
      by rewrite lookup_insert_ne.
  - destruct (decide (nid = m)) as [->|Hne]; [left; apply list_elem_of_here|].
    destruct Hnid as [Hnid|[Hn He]]; [left; by apply list_elem_of_further|].
    right. split.
    + unfold node_ok in *. views. by rewrite lookup_insert_ne.
    + intros m' Hm'. unfold edge_ok in *. views.
      destruct (decide (m' = m)) as [->|Hne'].
      * right. rewrite lookup_insert_eq. congruence.
      * rewrite lookup_insert_ne by done.
        destruct (He m' Hm') as [[?|?]%elem_of_cons|?]; auto. done.
Qed.

Lemma linv_skipped s nid m rest a b :
  linv d cfg p nid (m :: rest) s →
  near d s !! nid = Some a → far d s !! m = Some b → bool_lt a b = false →
  linv d cfg p nid rest s.
Proof.
  intros [Hothers Hnid] Ha Hm Hlt. split; [done|].
  destruct Hnid as [Hnid|[Hn He]]; [by left|]. right. split; [done|].
  intros m' Hm'. destruct (He m' Hm') as [[->|?]%elem_of_cons|?]; auto.
  right. unfold edge_ok. rewrite Ha, Hm. intros [= ->]. by destruct b.
Qed.

Lemma potential_pushed ds s m a :
  winv d cfg p ds s → far d s !! m = Some true →
  a = false ∨ m ∉ visited s →
  (potential d cfg (pushed d m a s) ≤ potential d cfg s)%nat.
Proof.
  intros Hw Hm Hor. unfold potential. views. cbn [length].
  assert (Hin : m ∈ get_node_ids cfg) by (apply (w_dom_far _ _ _ _ _ Hw); eauto).
  enough (total (weight d (pushed d m a s)) (get_node_ids cfg)
          < total (weight d s) (get_node_ids cfg))%nat by (unfold pushed in *; lia).
  assert (Hle : ∀ k, (weight d (pushed d m a s) k ≤ weight d s k)%nat).
  { intros k. unfold weight. views. destruct (decide (k = m)) as [->|].
    - rewrite lookup_insert_eq, Hm.
      rewrite (bool_decide_eq_true_2 (m ∈ {[m]} ∪ visited s))
      by apply elem_of_union_l, elem_of_singleton, eq_refl.
      destruct a; lia.
    - rewrite lookup_insert_ne by done.
      case_bool_decide as Hk'; case_bool_decide as Hk; try lia.
      exfalso. apply Hk'. by apply elem_of_union_r. }
  apply (total_lt _ _ _ m); [done..|].
  unfold weight. views. rewrite lookup_insert_eq, Hm.
  rewrite (bool_decide_eq_true_2 (m ∈ {[m]} ∪ visited s))
      by apply elem_of_union_l, elem_of_singleton, eq_refl.
  destruct Hor as [->|Hnv]; [lia|].
  rewrite (bool_decide_eq_false_2 (m ∈ visited s)) by done. destruct a; lia.
Qed.
End preservation.

(** ** The loops *)

Section loops.
Variable d : flow.
Variable check_pattern : PatternCheck.
Variable cfg : CFG.

Local Abbreviation p := (check_pattern cfg).
Local Abbreviation A := (analysis d).

Lemma visit_next_spec ds nid m rest s n :
  winv d cfg p ds s → linv d cfg p nid (m :: rest) s →
  is_Some (near d s !! nid) → (potential d cfg s ≤ n)%nat →
  match ptfa.visit_next nid m s (H := A) with
  | Val _ s' =>
      m ∈ get_node_ids cfg ∧ winv d cfg p ds s' ∧ linv d cfg p nid rest s' ∧
      is_Some (near d s' !! nid) ∧ (potential d cfg s' ≤ n)%nat
  | Exc e s' => e = KeyError m ∧ (m ∉ get_node_ids cfg) ∧ winv d cfg p ds s'
  | Fuel => False
  end.
Proof.
  intros Hw Hl [a Ha] Hn. destruct (far d s !! m) as [b|] eqn:Hm.
  - rewrite (visit_next_eq d nid m s a b Ha Hm).
    assert (Hin : m ∈ get_node_ids cfg) by (apply (w_dom_far _ _ _ _ _ Hw); eauto).
    destruct (bool_lt a b || bool_decide (m ∉ visited s)) eqn:Hgo.
    + assert (b = true) as ->.
      { destruct b; [done|]. exfalso.
        unfold bool_lt in Hgo. rewrite andb_false_r in Hgo. cbn in Hgo.
        apply bool_decide_eq_true in Hgo. apply Hgo.
        by apply (w_far_visited _ _ _ _ _ Hw). }
      assert (Hor : a = false ∨ m ∉ visited s).
      { destruct a; [right|by left]. cbn in Hgo. by apply bool_decide_eq_true in Hgo. }
      split; [done|]. split; [by apply winv_pushed|].
      split; [by apply (linv_pushed d cfg p s nid m rest a)|].
      split; [views; eauto|].
      pose proof (potential_pushed d cfg p ds s m a Hw Hm Hor). lia.
    + apply orb_false_iff in Hgo as [Hlt _].
      split; [done|]. split; [done|].
      split; [by apply (linv_skipped d cfg p s nid m rest a b)|]. eauto.
  - rewrite (visit_next_missing d nid m s a Ha Hm).
    split; [done|]. split; [|done].
    intros Hin. apply (w_dom_far _ _ _ _ _ Hw) in Hin as [? ?]. congruence.
Qed.

Lemma for_next_spec ds nid rest s n :
  winv d cfg p ds s → linv d cfg p nid rest s →
  is_Some (near d s !! nid) → (potential d cfg s ≤ n)%nat →
  match for_each rest (ptfa.visit_next nid (H := A)) s with
  | Val _ s' =>
      (∀ m, m ∈ rest → m ∈ get_node_ids cfg) ∧
      winv d cfg p ds s' ∧ linv d cfg p nid [] s' ∧ (potential d cfg s' ≤ n)%nat
  | Exc e s' =>
      (∃ m, e = KeyError m ∧ m ∈ rest ∧ m ∉ get_node_ids cfg) ∧ winv d cfg p ds s'
  | Fuel => False
  end.
Proof.
  revert s. induction rest as [|m rest IH]; intros s Hw Hl Hnear Hn.
  - cbn. split; [|done]. by intros m ?%elem_of_nil.
  - cbn [for_each]. unfold mbind, M_bind, bind.
    pose proof (visit_next_spec ds nid m rest s n Hw Hl Hnear Hn) as Hstep.
    destruct (ptfa.visit_next nid m s) as [[] s1|e s1|]; [| |done].
    2: { destruct Hstep as (-> & Hnot & Hw1). split; [|done].
         exists m. split; [done|]. split; [apply list_elem_of_here|done]. }
    destruct Hstep as (Hin & Hw1 & Hl1 & Hnear1 & Hn1).
    specialize (IH s1 Hw1 Hl1 Hnear1 Hn1).
    destruct (for_each rest (ptfa.visit_next nid) s1) as [[] s2|e s2|]; [| |done].
    + destruct IH as (Hall & ?). split; [|done].
      intros m' [->|?]%elem_of_cons; auto.
    + destruct IH as ((m' & ? & ? & ?) & ?). split; [|done].
      exists m'. split; [done|]. split; [|done]. by apply list_elem_of_further.
Qed.

Lemma linv_nil_finv nid s : linv d cfg p nid [] s → finv d cfg p s.
Proof.
  intros [Hothers Hnid] k Hk. destruct (decide (k = nid)) as [->|Hne]; [|auto].
  destruct Hnid as [?|[Hn He]]; [done|]. split; [done|].
  intros m Hm. destruct (He m Hm) as [?%elem_of_nil|?]; done.
Qed.

Lemma while_worklist_spec ds fuel s :
  winv d cfg p ds s → finv d cfg p s →
  match ptfa.while_worklist check_pattern cfg fuel s (H := A) with
  | Val _ s' => winv d cfg p ds s' ∧ finv d cfg p s' ∧ worklist s' = []
  | Exc e s' => dangling d cfg e ∧ winv d cfg p ds s'
  | Fuel => (fuel ≤ potential d cfg s)%nat
  end.
Proof.
  revert s. induction fuel as [|fuel IH]; intros s Hw Hf; [cbn; lia|].
  destruct (worklist s) as [|nid wl] eqn:Hwl.
  - by rewrite while_worklist_nil.
  - assert (Hin : nid ∈ get_node_ids cfg).
    { apply (w_visited _ _ _ _ _ Hw), (w_worklist _ _ _ _ _ Hw).
      rewrite Hwl. apply list_elem_of_here. }
    destruct (proj2 (w_dom_far _ _ _ _ _ Hw nid) Hin) as [b Hb].
    rewrite (while_worklist_cons d check_pattern cfg fuel s nid wl b Hwl Hb).
    unfold mbind, M_bind, bind.
    pose proof (potential_checked d cfg p s nid wl b Hwl) as Hpot.
    pose proof (winv_checked d cfg p ds s nid wl b Hw Hwl Hb) as Hw1.
    pose proof (linv_checked d cfg p s nid wl b Hf Hwl Hb) as Hl1.
    assert (Hnear : is_Some (near d (checked d p nid wl b s) !! nid)).
    { views. rewrite lookup_insert_eq. eauto. }
    pose proof (for_next_spec ds nid (adjacent d cfg nid) _
                  (potential d cfg (checked d p nid wl b s)) Hw1 Hl1 Hnear
                  (Nat.le_refl _)) as Hfor.
    destruct (for_each (adjacent d cfg nid) (ptfa.visit_next nid) _)
      as [[] s2|e s2|]; [| |done].
    + destruct Hfor as (_ & Hw2 & Hl2 & Hpot2).
      specialize (IH s2 Hw2 (linv_nil_finv nid s2 Hl2)).
      destruct (ptfa.while_worklist check_pattern cfg fuel s2); [done..|lia].
    + destruct Hfor as ((m & -> & Hm & Hnot) & Hw2). split; [|done].
      by exists nid, m.
Qed.

(** The loop over the seeds, each followed by the [while] loop. *)
Lemma seeds_loop_spec fuel l ds s :
  (∀ e, e ∈ l → e ∈ get_node_ids cfg) →
  winv d cfg p ds s → finv d cfg p s → worklist s = [] →
  match for_each ((λ e s, Val tt (seeded d e s)) <$> l)
          (λ seed, seed;; ptfa.while_worklist check_pattern cfg fuel (H := A)) s with
  | Val _ s' => winv d cfg p (l ++ ds) s' ∧ finv d cfg p s' ∧ worklist s' = []
  | Exc e s' => dangling d cfg e ∧ ∃ ds', winv d cfg p ds' s'
  | Fuel => (fuel < enough_fuel cfg)%nat
  end.
Proof.
  intros Hl Hw Hf Hwl. revert ds s Hl Hw Hf Hwl.
  induction l as [|e l IH]; intros ds s Hl Hw Hf Hwl; [done|].
  cbn [fmap list_fmap for_each]. unfold mbind at 1, M_bind at 1, bind at 1.
  unfold mbind at 1, M_bind at 1, bind at 1.
  assert (He : e ∈ get_node_ids cfg) by apply Hl, list_elem_of_here.
  pose proof (winv_seeded d cfg p ds s e Hw He) as Hw1.
  pose proof (finv_seeded d cfg p s e Hf) as Hf1.
  pose proof (potential_seeded d cfg s e Hwl) as Hpot.
  pose proof (while_worklist_spec (e :: ds) fuel _ Hw1 Hf1) as Hwhile.
  destruct (ptfa.while_worklist check_pattern cfg fuel (seeded d e s))
    as [[] s2|ex s2|]; [| |lia].
  - destruct Hwhile as (Hw2 & Hf2 & Hwl2).
    assert (Hl' : ∀ e', e' ∈ l → e' ∈ get_node_ids cfg).
    { intros e' ?. by apply Hl, list_elem_of_further. }
    specialize (IH (e :: ds) s2 Hl' Hw2 Hf2 Hwl2).
    destruct (for_each _ _ s2) as [[] s3|ex s3|]; [|done|done].
    destruct IH as (Hw3 & ? & ?). split; [|done].
    eapply winv_weaken; [|exact Hw3].
    intros k. cbn [app]. rewrite elem_of_cons, !elem_of_app, elem_of_cons. tauto.
  - destruct Hwhile as [? ?]. eauto.
Qed.

Lemma seeds_in_node_ids e : e ∈ seeds d cfg → e ∈ get_node_ids cfg.
Proof. unfold seeds. by intros [_ ?]%list_elem_of_filter. Qed.

(** The whole call: with enough fuel it returns settled mappings, or
    raises on a dangling neighbour; it never runs out of fuel. *)
Lemma call_spec fuel s0 :
  match ptfa.call check_pattern cfg fuel s0 (H := A) with
  | Val r s' =>
      r = result_of s' ∧ winv d cfg p (seeds d cfg) s' ∧ finv d cfg p s' ∧
      worklist s' = []
  | Exc e s' => dangling d cfg e ∧ ∃ ds, winv d cfg p ds s'
  | Fuel => (fuel < enough_fuel cfg)%nat
  end.
Proof.
  unfold ptfa.call, reset, return_dicts.
  rewrite pre_loop_init_eq. unfold mbind at 1 2, M_bind at 1 2, bind at 1 2.
  pose proof (seeds_loop_spec fuel (seeds d cfg) [] _ seeds_in_node_ids
                (winv_reset d cfg p) (finv_reset d cfg p) eq_refl) as Hloop.
  destruct (for_each _ _ _) as [[] s1|e s1|]; [|done|done].
  destruct Hloop as (Hw & Hf & Hwl). rewrite app_nil_r in Hw. done.
Qed.

Lemma closed_not_dangling e : closed d cfg → ¬ dangling d cfg e.
Proof. intros Hc (k & m & _ & Hk & Hm & Hnot). eauto. Qed.

(** On a closed graph the call returns. *)
Lemma call_returns fuel s0 :
  closed d cfg → (enough_fuel cfg ≤ fuel)%nat →
  ∃ s', ptfa.call check_pattern cfg fuel s0 (H := A) = Val (result_of s') s'
        ∧ winv d cfg p (seeds d cfg) s' ∧ finv d cfg p s' ∧ worklist s' = [].
Proof.
  intros Hc Hfuel. pose proof (call_spec fuel s0) as Hcall.
  destruct (ptfa.call _ _ _ _) as [r s'|e s'|]; [| |lia].
  - destruct Hcall as (-> & ? & ? & ?). eauto.
  - destruct Hcall as [Hd _]. by apply closed_not_dangling in Hd.
Qed.
End loops.

(** ** Well-formedness, as computed *)

Lemma closedb_closed d cfg : closedb d cfg = true → closed d cfg.
Proof.
  unfold closedb, closed. rewrite forallb_forall. intros Hall k m Hk Hm.
  apply list_elem_of_In in Hk. specialize (Hall k Hk).
  rewrite forallb_forall in Hall. apply list_elem_of_In in Hm.
  specialize (Hall m Hm). by apply bool_decide_eq_true in Hall.
Qed.

Lemma well_formed_closed d cfg : well_formed cfg = true → closed d cfg.
Proof.
  unfold well_formed. intros [? ?]%andb_true_iff. destruct d; by apply closedb_closed.
Qed.

(** ** The copy in [main.py] *)

Lemma bind_unfold {A B} (m : M A) (f : A → M B) s :
  (m ≫= f) s = match m s with
               | Val a s' => f a s'
               | Exc e s' => Exc e s'
               | Fuel => Fuel
               end.
Proof. done. Qed.

Section main_equations.
Variable d : flow.
Variable check_pattern : PatternCheck.
Variable cfg : CFG.

Local Abbreviation p := (check_pattern cfg).

Lemma main_pre_loop_init_eq :
  main.pre_loop_init cfg (DefinitelyPTFA := main_analysis d)
  = ptfa.pre_loop_init cfg (DefinitelyPTFA := analysis d).
Proof. by destruct d. Qed.

Lemma main_visit_next_eq nid :
  main.visit_next nid (H := main_analysis d) = ptfa.visit_next nid (H := analysis d).
Proof. by destruct d. Qed.

Lemma while_pop_nil fuel s :
  worklist s = [] →
  main.while_pop cfg check_pattern (S fuel) s (H := main_analysis d) = Exc IndexError s.
Proof. intros Hw. cbn. prims. by rewrite Hw. Qed.

Lemma while_pop_zero fuel s wl :
  worklist s = 0 :: wl →
  main.while_pop cfg check_pattern (S fuel) s (H := main_analysis d)
  = Val tt (mkState (visited s) wl (in_dict s) (out_dict s) (EPop 0 :: trace s)).
Proof. intros Hw. cbn. prims. by rewrite Hw. Qed.

Lemma while_pop_cons fuel s nid wl b :
  worklist s = nid :: wl → nid ≠ 0 → far d s !! nid = Some b →
  main.while_pop cfg check_pattern (S fuel) s (H := main_analysis d)
  = (for_each (adjacent d cfg nid) (ptfa.visit_next nid (H := analysis d));;
     main.while_pop cfg check_pattern fuel (H := main_analysis d))
      (checked d p nid wl b s).
Proof.
  intros Hw Hne Hb. rewrite <- next_nodes_eq, <- main_visit_next_eq.
  destruct d; cbn in Hb |- *;
    unfold main.Reachable.check_node, main.Reaching.check_node; prims;
    repeat (rewrite ?Hw, ?Hb; cbn);
    rewrite (bool_decide_eq_true_2 (nid ≠ 0)) by done;
    repeat (rewrite ?Hw, ?Hb; cbn); by destruct b.
Qed.

(** Where node id [0] does not occur, the two loops do the same. *)
Lemma while_agree ds fuel s :
  0 ∉ get_node_ids cfg → winv d cfg p ds s → finv d cfg p s →
  suppress_IndexError (main.while_pop cfg check_pattern fuel (H := main_analysis d)) s
  = ptfa.while_worklist check_pattern cfg fuel s (H := analysis d).
Proof.
  intros H0. revert s. induction fuel as [|fuel IH]; intros s Hw Hf; [done|].
  destruct (worklist s) as [|nid wl] eqn:Hwl.
  - rewrite while_worklist_nil by done.
    unfold suppress_IndexError. by rewrite while_pop_nil.
  - assert (Hin : nid ∈ get_node_ids cfg).
    { apply (w_visited _ _ _ _ _ Hw), (w_worklist _ _ _ _ _ Hw).
      rewrite Hwl. apply list_elem_of_here. }
    assert (Hne : nid ≠ 0) by (by intros ->).
    destruct (proj2 (w_dom_far _ _ _ _ _ Hw nid) Hin) as [b Hb].
    rewrite (while_worklist_cons d check_pattern cfg fuel s nid wl b Hwl Hb).
    unfold suppress_IndexError at 1.
    rewrite (while_pop_cons fuel s nid wl b Hwl Hne Hb).
    unfold mbind, M_bind, bind.
    pose proof (winv_checked d cfg p ds s nid wl b Hw Hwl Hb) as Hw1.
    pose proof (linv_checked d cfg p s nid wl b Hf Hwl Hb) as Hl1.
    assert (Hnear : is_Some (near d (checked d p nid wl b s) !! nid)).
    { views. rewrite lookup_insert_eq. eauto. }
    pose proof (for_next_spec d check_pattern cfg ds nid (adjacent d cfg nid) _
                  (potential d cfg (checked d p nid wl b s)) Hw1 Hl1 Hnear
                  (Nat.le_refl _)) as Hfor.
    destruct (for_each (adjacent d cfg nid) (ptfa.visit_next nid) _)
      as [[] s2|e s2|]; [| |done].
    + destruct Hfor as (_ & Hw2 & Hl2 & _).
      apply (IH s2 Hw2 (linv_nil_finv d check_pattern cfg nid s2 Hl2)).
    + by destruct Hfor as ((m & -> & _) & _).
Qed.

Lemma seeds_agree fuel l ds s :
  0 ∉ get_node_ids cfg → (∀ e, e ∈ l → e ∈ get_node_ids cfg) →
  winv d cfg p ds s → finv d cfg p s → worklist s = [] →
  for_each ((λ e s, Val tt (seeded d e s)) <$> l)
    (λ seed, seed;;
       suppress_IndexError (main.while_pop cfg check_pattern fuel (H := main_analysis d))) s
  = for_each ((λ e s, Val tt (seeded d e s)) <$> l)
      (λ seed, seed;; ptfa.while_worklist check_pattern cfg fuel (H := analysis d)) s.
Proof.
  intros H0. revert ds s. induction l as [|e l IH]; intros ds s Hl Hw Hf Hwl; [done|].
  cbn [fmap list_fmap for_each]. rewrite !bind_unfold. cbn beta iota.
  assert (He : e ∈ get_node_ids cfg) by apply Hl, list_elem_of_here.
  pose proof (winv_seeded d cfg p ds s e Hw He) as Hw1.
  pose proof (finv_seeded d cfg p s e Hf) as Hf1.
  rewrite (while_agree (e :: ds) fuel _ H0 Hw1 Hf1).
  pose proof (while_worklist_spec d check_pattern cfg (e :: ds) fuel _ Hw1 Hf1) as Hwhile.
  destruct (ptfa.while_worklist check_pattern cfg fuel (seeded d e s))
    as [[] s2|ex s2|]; [|done|done].
  destruct Hwhile as (Hw2 & Hf2 & Hwl2).
  apply (IH (e :: ds)); [|done..].
  intros e' ?. by apply Hl, list_elem_of_further.
Qed.

(** On graphs without node id [0] the two files compute the same. *)
Lemma call_agree fuel s0 :
  0 ∉ get_node_ids cfg →
  main.call cfg check_pattern fuel s0 (H := main_analysis d)
  = ptfa.call check_pattern cfg fuel s0 (H := analysis d).
Proof.
  intros H0. unfold main.call, ptfa.call, reset.
  rewrite main_pre_loop_init_eq, pre_loop_init_eq.
  rewrite !bind_unfold. cbn beta iota.
  by rewrite (seeds_agree fuel (seeds d cfg) [] _ H0
                (seeds_in_node_ids d cfg) (winv_reset d cfg p) (finv_reset d cfg p)
                eq_refl).
Qed.
End main_equations.

(** ** The rules applied to a finished state *)

Section rules.
Variable d : flow.
Variable check_pattern : PatternCheck.
Variable cfg : CFG.

Lemma in_dict_mk v w n f t :
  in_dict (mk d v w n f t) = match d with Backward => n | Forward => f end.
Proof. by destruct d. Qed.

Lemma out_dict_mk v w n f t :
  out_dict (mk d v w n f t) = match d with Backward => f | Forward => n end.
Proof. by destruct d. Qed.

Lemma check_node_eq nid s b :
  far d s !! nid = Some b →
  ptfa.check_node check_pattern cfg nid s (DefinitelyPTFA := analysis d)
  = Val tt (mk d (visited s) (worklist s)
              (<[nid := b || check_pattern cfg nid]> (near d s)) (far d s)
              (EWrite (near_id d) nid (near d s !! nid) (b || check_pattern cfg nid)
               :: (if b then [] else [ECall nid]) ++ trace s)).
Proof.
  intros Hb. destruct d; cbn in Hb |- *;
    unfold ptfa.Reachable.check_node, ptfa.Reaching.check_node; prims;
    rewrite Hb; by destruct b.
Qed.

Lemma can_propagate_eq nid m s a b :
  near d s !! nid = Some a → far d s !! m = Some b →
  ptfa.can_propagate nid m s (DefinitelyPTFA := analysis d) = Val (bool_lt a b) s.
Proof.
  intros Ha Hb. destruct d; cbn in Ha, Hb |- *;
    unfold ptfa.Reachable.can_propagate, ptfa.Reaching.can_propagate; prims;
    by rewrite Ha, Hb.
Qed.

Lemma can_propagate_missing nid m s a :
  near d s !! nid = Some a → far d s !! m = None →
  ptfa.can_propagate nid m s (DefinitelyPTFA := analysis d) = Exc (KeyError m) s.
Proof.
  intros Ha Hb. destruct d; cbn in Ha, Hb |- *;
    unfold ptfa.Reachable.can_propagate, ptfa.Reaching.can_propagate; prims;
    by rewrite Ha, Hb.
Qed.

(** A settled node: the node check rewrites its fact with the same value. *)
Lemma check_node_stable s nid :
  nid ∈ get_node_ids cfg →
  winv d cfg (check_pattern cfg) (seeds d cfg) s →
  node_ok d (check_pattern cfg) s nid →
  ∃ s', ptfa.check_node check_pattern cfg nid s (DefinitelyPTFA := analysis d) = Val tt s'
        ∧ in_dict s' = in_dict s ∧ out_dict s' = out_dict s.
Proof.
  intros Hin Hw Hn.
  destruct (proj2 (w_dom_far _ _ _ _ _ Hw nid) Hin) as [b Hb].
  rewrite (check_node_eq nid s b Hb). eexists. split; [done|].
  unfold node_ok in Hn. rewrite Hb in Hn. cbn in Hn.
  rewrite in_dict_mk, out_dict_mk, (insert_id _ _ _ Hn). by destruct d.
Qed.

(** A settled edge: the guard is false. *)
Lemma can_propagate_stable s nid m :
  nid ∈ get_node_ids cfg → m ∈ get_node_ids cfg →
  winv d cfg (check_pattern cfg) (seeds d cfg) s →
  edge_ok d s nid m →
  ptfa.can_propagate nid m s (DefinitelyPTFA := analysis d) = Val false s.
Proof.
  intros Hin Hm Hw He.
  destruct (proj2 (w_dom_near _ _ _ _ _ Hw nid) Hin) as [a Ha].
  destruct (proj2 (w_dom_far _ _ _ _ _ Hw m) Hm) as [b Hb].
  rewrite (can_propagate_eq nid m s a b Ha Hb). f_equal.
  unfold edge_ok in He. rewrite Ha, Hb in He.
  destruct a, b; try done. by specialize (He eq_refl).
Qed.
End rules.

(** * The claims *)

(** ** Termination, totality, fixpoint *)

(** C5: on every well-formed graph, cyclic or not, and for every
    predicate the call returns, for each of the two analyses, as soon as
    the fuel is at least [2 * |node ids| + 2]. *)
Theorem call_terminates (d : flow) (check_pattern : PatternCheck) (cfg : CFG)
    (fuel : nat) (s0 : State) :
  well_formed cfg = true → (enough_fuel cfg ≤ fuel)%nat →
  ∃ i o s', ptfa.call check_pattern cfg fuel s0 (H := analysis d) = Val (i, o) s'.
Proof.
  intros Hwf Hfuel.
  destruct (call_returns d check_pattern cfg fuel s0 (well_formed_closed d cfg Hwf) Hfuel)
    as (s' & Hcall & _).
  by exists (in_dict s'), (out_dict s'), s'.
Qed.

Lemma call_terminates_witness :
  well_formed cyclic_cfg = true ∧ (enough_fuel cyclic_cfg ≤ 10)%nat ∧
  ∃ i o s', ptfa.call always cyclic_cfg 10 fresh (H := analysis Forward) = Val (i, o) s'.
Proof.
  split; [reflexivity|]. split; [vm_compute; lia|].
  apply (call_terminates Forward always cyclic_cfg 10 fresh); [reflexivity|vm_compute; lia].
Defined.

(** C6: on a well-formed graph the call returns two mappings whose key
    sets are both exactly the set of node ids. *)
Theorem call_total_mappings (d : flow) (check_pattern : PatternCheck) (cfg : CFG)
    (fuel : nat) (s0 : State) :
  well_formed cfg = true → (enough_fuel cfg ≤ fuel)%nat →
  ∃ i o s', ptfa.call check_pattern cfg fuel s0 (H := analysis d) = Val (i, o) s'
            ∧ dom i = list_to_set (get_node_ids cfg)
            ∧ dom o = list_to_set (get_node_ids cfg).
Proof.
  intros Hwf Hfuel.
  destruct (call_returns d check_pattern cfg fuel s0 (well_formed_closed d cfg Hwf) Hfuel)
    as (s' & Hcall & Hw & _).
  exists (in_dict s'), (out_dict s'), s'. split; [done|].
  pose proof (w_dom_near _ _ _ _ _ Hw) as Hn. pose proof (w_dom_far _ _ _ _ _ Hw) as Hf.
  split; apply set_eq; intros k; rewrite elem_of_dom, elem_of_list_to_set;
    destruct d; cbn in Hn, Hf; auto.
Qed.

Lemma call_total_mappings_witness :
  well_formed chain_cfg = true ∧ (enough_fuel chain_cfg ≤ 8)%nat ∧
  ∃ i o s', ptfa.call never chain_cfg 8 fresh (H := analysis Backward) = Val (i, o) s'
            ∧ dom i = list_to_set (get_node_ids chain_cfg)
            ∧ dom o = list_to_set (get_node_ids chain_cfg).
Proof.
  split; [reflexivity|]. split; [vm_compute; lia|].
  apply (call_total_mappings Backward never chain_cfg 8 fresh); [reflexivity|vm_compute; lia].
Defined.

(** C3: on a well-formed graph the returned mappings are a fixpoint of
    both rules, for either analysis ([near] is the in mapping and [far] the
    out mapping for Definitely-Reachable, the other way round for
    Definitely-Reaching).  At every node id the near fact equals
    [far OR P(cfg, nid)], so the node-check rule changes nothing; on no
    followed edge is the near fact of the node False while the far fact of
    the neighbour is True, so the propagation guard holds nowhere.
    Accordingly, running the node check of the engine again on any node
    rewrites the same value, and its propagation guard returns False on
    every edge. *)
Theorem call_result_is_fixpoint (d : flow) (check_pattern : PatternCheck) (cfg : CFG)
    (fuel : nat) (s0 : State) :
  well_formed cfg = true → (enough_fuel cfg ≤ fuel)%nat →
  ∃ s', ptfa.call check_pattern cfg fuel s0 (H := analysis d)
        = Val (in_dict s', out_dict s') s'
    ∧ fixpoint d cfg (check_pattern cfg) s'
    ∧ (∀ nid, nid ∈ get_node_ids cfg →
         ∃ b, far d s' !! nid = Some b
              ∧ near d s' !! nid = Some (b || check_pattern cfg nid))
    ∧ (∀ nid next_nid, nid ∈ get_node_ids cfg → next_nid ∈ adjacent d cfg nid →
         ¬ (near d s' !! nid = Some false ∧ far d s' !! next_nid = Some true))
    ∧ (∀ nid, nid ∈ get_node_ids cfg →
         ∃ s'', ptfa.check_node check_pattern cfg nid s' (DefinitelyPTFA := analysis d)
                = Val tt s''
                ∧ in_dict s'' = in_dict s' ∧ out_dict s'' = out_dict s')
    ∧ (∀ nid next_nid, nid ∈ get_node_ids cfg →
         next_nid ∈ ptfa.next_nodes cfg nid (DefinitelyPTFA := analysis d) →
         ptfa.can_propagate nid next_nid s' (DefinitelyPTFA := analysis d) = Val false s').
Proof.
  intros Hwf Hfuel. pose proof (well_formed_closed d cfg Hwf) as Hc.
  destruct (call_returns d check_pattern cfg fuel s0 Hc Hfuel)
    as (s' & Hcall & Hw & Hf & Hwl).
  exists s'. split; [done|].
  assert (Hfix : fixpoint d cfg (check_pattern cfg) s').
  { intros k. apply Hf. rewrite Hwl. apply not_elem_of_nil. }
  split; [done|]. split; [|split; [|split]].
  - intros nid Hin. destruct (proj2 (w_dom_far _ _ _ _ _ Hw nid) Hin) as [b Hb].
    exists b. split; [done|]. destruct (Hfix nid) as [Hn _].
    unfold node_ok in Hn. by rewrite Hb in Hn.
  - intros nid m Hin Hm [Hn Hfm]. destruct (Hfix nid) as [_ He].
    specialize (He m Hm Hn). congruence.
  - intros nid Hin. apply check_node_stable; [done..|]. apply Hfix.
  - intros nid m Hin Hm. rewrite next_nodes_eq in Hm.
    apply (can_propagate_stable d check_pattern cfg); [done|by eapply Hc|done|].
    by apply Hfix.
Qed.

Lemma call_result_is_fixpoint_witness :
  well_formed cyclic_cfg = true ∧ (enough_fuel cyclic_cfg ≤ 10)%nat ∧
  ∃ s', ptfa.call main.check_pattern cyclic_cfg 10 fresh (H := analysis Backward)
        = Val (in_dict s', out_dict s') s'
    ∧ fixpoint Backward cyclic_cfg (main.check_pattern cyclic_cfg) s'
    ∧ (∀ nid, nid ∈ get_node_ids cyclic_cfg →
         ∃ b, far Backward s' !! nid = Some b
              ∧ near Backward s' !! nid = Some (b || main.check_pattern cyclic_cfg nid))
    ∧ (∀ nid next_nid, nid ∈ get_node_ids cyclic_cfg →
         next_nid ∈ adjacent Backward cyclic_cfg nid →
         ¬ (near Backward s' !! nid = Some false
            ∧ far Backward s' !! next_nid = Some true))
    ∧ (∀ nid, nid ∈ get_node_ids cyclic_cfg →
         ∃ s'', ptfa.check_node main.check_pattern cyclic_cfg nid s'
                  (DefinitelyPTFA := analysis Backward) = Val tt s''
                ∧ in_dict s'' = in_dict s' ∧ out_dict s'' = out_dict s')
    ∧ (∀ nid next_nid, nid ∈ get_node_ids cyclic_cfg →
         next_nid ∈ ptfa.next_nodes cyclic_cfg nid (DefinitelyPTFA := analysis Backward) →
         ptfa.can_propagate nid next_nid s' (DefinitelyPTFA := analysis Backward)
         = Val false s').
Proof.
  split; [reflexivity|]. split; [vm_compute; lia|].
  apply (call_result_is_fixpoint Backward main.check_pattern cyclic_cfg 10 fresh);
    [reflexivity|vm_compute; lia].
Defined.

(** ** Monotone convergence and the seed boundary *)

(** C4: every write of a run, be it a seeding, a node check or a
    propagation, leaves the fact unchanged or lowers it from True to
    False.  The trace of the final state holds one [EWrite] event per
    executed assignment [self.in_dict[k] = v] or [self.out_dict[k] = v],
    with the previous binding of the key; this holds for runs that return
    and for runs that raise. *)
Theorem writes_only_decrease (d : flow) (check_pattern : PatternCheck) (cfg : CFG)
    (fuel : nat) (s0 : State) :
  (enough_fuel cfg ≤ fuel)%nat →
  match ptfa.call check_pattern cfg fuel s0 (H := analysis d) with
  | Val _ s' => Forall mono_event (trace s')
  | Exc _ s' => Forall mono_event (trace s')
  | Fuel => False
  end.
Proof.
  intros Hfuel. pose proof (call_spec d check_pattern cfg fuel s0) as Hcall.
  destruct (ptfa.call _ _ _ _) as [r s'|e s'|]; [| |lia].
  - destruct Hcall as (_ & Hw & _). apply (w_trace _ _ _ _ _ Hw).
  - destruct Hcall as (_ & ds & Hw). apply (w_trace _ _ _ _ _ Hw).
Qed.

Lemma writes_only_decrease_witness :
  (enough_fuel cyclic_cfg ≤ 10)%nat ∧
  match ptfa.call main.check_pattern cyclic_cfg 10 fresh (H := analysis Forward) with
  | Val _ s' => Forall mono_event (trace s')
  | Exc _ s' => Forall mono_event (trace s')
  | Fuel => False
  end.
Proof.
  split; [vm_compute; lia|].
  apply (writes_only_decrease Forward main.check_pattern cyclic_cfg 10 fresh).
  vm_compute; lia.
Defined.

(** Every seed keeps the far fact it was given. *)
Lemma seeds_stay_false (d : flow) (check_pattern : PatternCheck) (cfg : CFG)
    (fuel : nat) (s0 : State) :
  (enough_fuel cfg ≤ fuel)%nat →
  match ptfa.call check_pattern cfg fuel s0 (H := analysis d) with
  | Val r s' =>
      r = result_of s' ∧
      ∀ e, e ∈ get_node_ids cfg → get_type cfg e = seed_type d →
           far d s' !! e = Some false
  | Exc e _ => dangling d cfg e
  | Fuel => False
  end.
Proof.
  intros Hfuel. pose proof (call_spec d check_pattern cfg fuel s0) as Hcall.
  destruct (ptfa.call _ _ _ _) as [r s'|e s'|]; [|by destruct Hcall|lia].
  destruct Hcall as (-> & Hw & _). split; [done|]. intros e He Ht.
  apply (w_done _ _ _ _ _ Hw). unfold seeds. by apply list_elem_of_filter.
Qed.

(** C7: a Definitely-Reachable run returns an out mapping that is False
    at every Exit node, and a Definitely-Reaching run an in mapping that
    is False at every Entry node.  The only way not to return is the
    [KeyError] of a malformed graph. *)
Theorem seed_boundary (check_pattern : PatternCheck) (cfg : CFG)
    (fuel : nat) (s0 : State) :
  (enough_fuel cfg ≤ fuel)%nat →
  match ptfa.call check_pattern cfg fuel s0 (H := ptfa.DefinitelyReachablePTFA) with
  | Val (_, o) _ =>
      ∀ e, e ∈ get_node_ids cfg → get_type cfg e = "Exit"%string → o !! e = Some false
  | Exc e _ => dangling Backward cfg e
  | Fuel => False
  end ∧
  match ptfa.call check_pattern cfg fuel s0 (H := ptfa.DefinitelyReachingPTFA) with
  | Val (i, _) _ =>
      ∀ e, e ∈ get_node_ids cfg → get_type cfg e = "Entry"%string → i !! e = Some false
  | Exc e _ => dangling Forward cfg e
  | Fuel => False
  end.
Proof.
  intros Hfuel. split.
  - pose proof (seeds_stay_false Backward check_pattern cfg fuel s0 Hfuel) as H.
    cbn [analysis] in H. destruct (ptfa.call _ _ _ _) as [[i o] s'|e s'|]; [|done..].
    destruct H as [[= -> ->] H]. exact H.
  - pose proof (seeds_stay_false Forward check_pattern cfg fuel s0 Hfuel) as H.
    cbn [analysis] in H. destruct (ptfa.call _ _ _ _) as [[i o] s'|e s'|]; [|done..].
    destruct H as [[= -> ->] H]. exact H.
Qed.

Lemma seed_boundary_witness :
  (enough_fuel chain_cfg ≤ 8)%nat ∧
  match ptfa.call always chain_cfg 8 fresh (H := ptfa.DefinitelyReachablePTFA) with
  | Val (_, o) _ =>
      ∀ e, e ∈ get_node_ids chain_cfg → get_type chain_cfg e = "Exit"%string →
           o !! e = Some false
  | Exc e _ => dangling Backward chain_cfg e
  | Fuel => False
  end ∧
  match ptfa.call always chain_cfg 8 fresh (H := ptfa.DefinitelyReachingPTFA) with
  | Val (i, _) _ =>
      ∀ e, e ∈ get_node_ids chain_cfg → get_type chain_cfg e = "Entry"%string →
           i !! e = Some false
  | Exc e _ => dangling Forward chain_cfg e
  | Fuel => False
  end.
Proof.
  split; [vm_compute; lia|].
  apply (seed_boundary always chain_cfg 8 fresh). vm_compute; lia.
Defined.

(** ** Runs without seeds *)

(** Without a seed the loop body never runs: the call returns the
    initial mappings and an empty trace, whatever the fuel. *)
Lemma call_unseeded (d : flow) (check_pattern : PatternCheck) (cfg : CFG)
    (fuel : nat) (s0 : State) :
  seeds d cfg = [] →
  ptfa.call check_pattern cfg fuel s0 (H := analysis d)
  = Val (all_true (get_node_ids cfg), all_true (get_node_ids cfg))
      (mkState ∅ [] (all_true (get_node_ids cfg)) (all_true (get_node_ids cfg)) []).
Proof.
  intros Hs. unfold ptfa.call. by rewrite pre_loop_init_eq, Hs.
Qed.

(** C8: on a graph with no node of the seeding category the call does
    not fail; both returned mappings are the initial ones, True at every
    node id, and the trace is empty: no write happened and the predicate
    was not called. *)
Theorem no_seeds_all_true (d : flow) (check_pattern : PatternCheck) (cfg : CFG)
    (fuel : nat) (s0 : State) :
  seeds d cfg = [] →
  ∃ i o s', ptfa.call check_pattern cfg fuel s0 (H := analysis d) = Val (i, o) s'
    ∧ i = all_true (get_node_ids cfg) ∧ o = all_true (get_node_ids cfg)
    ∧ (∀ k, k ∈ get_node_ids cfg → i !! k = Some true ∧ o !! k = Some true)
    ∧ trace s' = [] ∧ count_ev is_call (trace s') = 0%nat.
Proof.
  intros Hs. rewrite (call_unseeded d check_pattern cfg fuel s0 Hs).
  eexists _, _, _. split; [done|]. split; [done|]. split; [done|].
  split; [|done]. intros k Hk. rewrite lookup_all_true.
  by rewrite bool_decide_eq_true_2.
Qed.

Lemma no_seeds_all_true_witness :
  seeds Backward unseeded_cfg = [] ∧
  ∃ i o s', ptfa.call always unseeded_cfg 0 fresh (H := analysis Backward) = Val (i, o) s'
    ∧ i = all_true (get_node_ids unseeded_cfg) ∧ o = all_true (get_node_ids unseeded_cfg)
    ∧ (∀ k, k ∈ get_node_ids unseeded_cfg → i !! k = Some true ∧ o !! k = Some true)
    ∧ trace s' = [] ∧ count_ev is_call (trace s') = 0%nat.
Proof.
  split; [reflexivity|].
  apply (no_seeds_all_true Backward always unseeded_cfg 0 fresh). reflexivity.
Defined.

(** ** A single isolated node *)

(** C9, as stated, fails: on a single isolated node typed Exit with a
    predicate that holds there, the Definitely-Reaching call does not
    return in = False and out = True for that node. *)
Lemma lonely_exit_is_not_seeded :
  ¬ ∃ i o s', ptfa.call always lonely_exit_cfg (enough_fuel lonely_exit_cfg) fresh
                (H := ptfa.DefinitelyReachingPTFA) = Val (i, o) s'
              ∧ i !! 1 = Some false ∧ o !! 1 = Some true.
Proof.
  intros (i & o & s' & Hcall & Hi & _).
  rewrite (call_unseeded Forward always lonely_exit_cfg _ fresh eq_refl) in Hcall.
  injection Hcall as <- <- <-. vm_compute in Hi. discriminate.
Qed.

(** C9, amended: the Definitely-Reaching analysis seeds Entry nodes only.
    On a graph made of a single isolated node typed Exit, with a predicate
    that holds there, the call seeds nothing and returns in = True and
    out = True for that node, without calling the predicate. *)
Theorem lonely_exit_reaching (check_pattern : PatternCheck) (cfg : CFG) (n : Z)
    (fuel : nat) (s0 : State) :
  get_node_ids cfg = [n] → get_type cfg n = "Exit"%string →
  get_any_parents cfg n = [] → get_any_children cfg n = [] →
  check_pattern cfg n = true →
  ∃ i o s', ptfa.call check_pattern cfg fuel s0 (H := ptfa.DefinitelyReachingPTFA)
            = Val (i, o) s'
    ∧ i !! n = Some true ∧ o !! n = Some true ∧ trace s' = [].
Proof.
  intros Hids Hty _ _ _.
  assert (Hs : seeds Forward cfg = []).
  { unfold seeds. rewrite Hids, filter_cons, Hty, filter_nil. by case_decide. }
  change ptfa.DefinitelyReachingPTFA with (analysis Forward).
  rewrite (call_unseeded Forward check_pattern cfg fuel s0 Hs).
  eexists _, _, _. split; [done|]. rewrite Hids.
  unfold all_true. cbn. by rewrite lookup_insert_eq.
Qed.

Lemma lonely_exit_reaching_witness :
  get_node_ids lonely_exit_cfg = [1] ∧ get_type lonely_exit_cfg 1 = "Exit"%string ∧
  get_any_parents lonely_exit_cfg 1 = [] ∧ get_any_children lonely_exit_cfg 1 = [] ∧
  always lonely_exit_cfg 1 = true ∧
  ∃ i o s', ptfa.call always lonely_exit_cfg 4 fresh (H := ptfa.DefinitelyReachingPTFA)
            = Val (i, o) s'
    ∧ i !! 1 = Some true ∧ o !! 1 = Some true ∧ trace s' = [].
Proof.
  repeat (split; [reflexivity|]).
  apply (lonely_exit_reaching always lonely_exit_cfg 1 4 fresh); reflexivity.
Defined.

(** The same node typed Entry is a seed: in = False, out = True. *)
Lemma lonely_entry_reaching (check_pattern : PatternCheck) (cfg : CFG) (n : Z)
    (fuel : nat) (s0 : State) :
  get_node_ids cfg = [n] → get_type cfg n = "Entry"%string →
  get_any_children cfg n = [] → check_pattern cfg n = true →
  (enough_fuel cfg ≤ fuel)%nat →
  ∃ i o s', ptfa.call check_pattern cfg fuel s0 (H := ptfa.DefinitelyReachingPTFA)
            = Val (i, o) s'
    ∧ i !! n = Some false ∧ o !! n = Some true.
Proof.
  intros Hids Hty Hch Hp Hfuel.
  assert (Hin : n ∈ get_node_ids cfg) by (rewrite Hids; apply list_elem_of_here).
  assert (Hc : closed Forward cfg).
  { intros k m Hk Hm. rewrite Hids in Hk. apply list_elem_of_singleton in Hk as ->.
    cbn in Hm. rewrite Hch in Hm. by apply elem_of_nil in Hm. }
  destruct (call_returns Forward check_pattern cfg fuel s0 Hc Hfuel)
    as (s' & Hcall & Hw & Hf & Hwl).
  exists (in_dict s'), (out_dict s'), s'. split; [done|].
  assert (Hi : in_dict s' !! n = Some false).
  { apply (w_done _ _ _ _ _ Hw). unfold seeds. by apply list_elem_of_filter. }
  split; [done|].
  assert (Hnot : n ∉ worklist s') by (rewrite Hwl; apply not_elem_of_nil).
  destruct (Hf n Hnot) as [Hn _]. unfold node_ok in Hn. cbn in Hn.
  by rewrite Hi, Hp in Hn.
Qed.

(** ** Malformed graphs *)

(** C10: there are graphs, one for each analysis, on which a neighbour
    of a node reached from a seed is not a node id, and on which the call
    raises [KeyError] for that neighbour: the state is the one in which
    the propagation guard fails on its second lookup.  And on every graph
    whose followed adjacency stays inside the node ids the call raises
    nothing, whatever the fuel. *)
Theorem keyerror_only_on_dangling_neighbour :
  (∃ s, ptfa.call never dangling_cfg (enough_fuel dangling_cfg) fresh
          (H := ptfa.DefinitelyReachablePTFA) = Exc (KeyError 9) s
        ∧ 9 ∈ get_any_parents dangling_cfg 2 ∧ (9 ∉ get_node_ids dangling_cfg)
        ∧ ptfa.Reachable.can_propagate 2 9 s = Exc (KeyError 9) s) ∧
  (∃ s, ptfa.call never dangling_cfg (enough_fuel dangling_cfg) fresh
          (H := ptfa.DefinitelyReachingPTFA) = Exc (KeyError 9) s
        ∧ 9 ∈ get_any_children dangling_cfg 1 ∧ (9 ∉ get_node_ids dangling_cfg)
        ∧ ptfa.Reaching.can_propagate 1 9 s = Exc (KeyError 9) s) ∧
  (∀ (d : flow) (check_pattern : PatternCheck) (cfg : CFG) (fuel : nat) (s0 : State),
     closedb d cfg = true →
     ∀ e s', ptfa.call check_pattern cfg fuel s0 (H := analysis d) ≠ Exc e s').
Proof.
  split; [|split].
  - eexists. split; [vm_compute; reflexivity|].
    split; [compute_done|]. split; [compute_done|]. vm_compute; reflexivity.
  - eexists. split; [vm_compute; reflexivity|].
    split; [compute_done|]. split; [compute_done|]. vm_compute; reflexivity.
  - intros d check_pattern cfg fuel s0 Hc e s' Hcall.
    pose proof (call_spec d check_pattern cfg fuel s0) as Hspec.
    rewrite Hcall in Hspec. destruct Hspec as [Hd _].
    by apply (closed_not_dangling d cfg e (closedb_closed d cfg Hc)).
Qed.

Lemma keyerror_only_on_dangling_neighbour_witness :
  closedb Backward cyclic_cfg = true ∧
  ∀ e s', ptfa.call always cyclic_cfg 10 fresh (H := analysis Backward) ≠ Exc e s'.
Proof.
  split; [reflexivity|].
  apply (proj2 (proj2 keyerror_only_on_dangling_neighbour)
           Backward always cyclic_cfg 10%nat fresh).
  reflexivity.
Defined.

(** ** The two files *)

(** In [ptfa.py] the loop ends on the empty worklist only: in the state a
    call returns, every push has been matched by a pop and every pop by a
    node check. *)
Lemma ptfa_call_checks_every_push (d : flow) (check_pattern : PatternCheck) (cfg : CFG)
    (fuel : nat) (s0 : State) :
  (enough_fuel cfg ≤ fuel)%nat →
  match ptfa.call check_pattern cfg fuel s0 (H := analysis d) with
  | Val _ s' =>
      worklist s' = [] ∧
      ∀ k, count_ev (is_push k) (trace s') = count_ev (is_pop k) (trace s')
           ∧ count_ev (is_pop k) (trace s') = count_ev (is_check k) (trace s')
  | Exc e _ => dangling d cfg e
  | Fuel => False
  end.
Proof.
  intros Hfuel. pose proof (call_spec d check_pattern cfg fuel s0) as Hcall.
  destruct (ptfa.call _ _ _ _) as [r s'|e s'|]; [|by destruct Hcall|lia].
  destruct Hcall as (_ & Hw & _ & Hwl). split; [done|]. intros k.
  pose proof (w_pushes _ _ _ _ _ Hw k) as Hpu. rewrite Hwl in Hpu. cbn in Hpu.
  split; [lia|]. apply (w_pops _ _ _ _ _ Hw).
Qed.

(** C1 fails in [main.py]: [while nid := self.worklist.pop()] also ends
    when the popped id is [0].  On the diamond [zero_cfg] the
    Definitely-Reachable call of [main.py] returns while node [1] is still
    on the worklist: [1] was pushed and never popped nor checked, and [0]
    was pushed and popped but never checked. *)
Theorem main_call_drops_pending_nodes :
  ∃ i o s', main.call zero_cfg never (enough_fuel zero_cfg) fresh
              (H := main.DefinitelyReachablePTFA) = Val (i, o) s'
    ∧ well_formed zero_cfg = true
    ∧ worklist s' = [1]
    ∧ count_ev (is_push 1) (trace s') = 1%nat
    ∧ count_ev (is_pop 1) (trace s') = 0%nat
    ∧ count_ev (is_check 1) (trace s') = 0%nat
    ∧ count_ev (is_push 0) (trace s') = 1%nat
    ∧ count_ev (is_pop 0) (trace s') = 1%nat
    ∧ count_ev (is_check 0) (trace s') = 0%nat.
Proof.
  eexists _, _, _. split; [vm_compute; reflexivity|].
  repeat split; vm_compute; reflexivity.
Qed.

(** C2 fails on the same graph: the two files return different
    mappings, for the Definitely-Reachable and for the Definitely-Reaching
    analysis.  In [ptfa.py] node [1] is checked and its near fact becomes
    False; in [main.py] it keeps the initial True. *)
Theorem main_and_ptfa_differ_on_node_zero :
  (∃ i o s i' o' s',
     main.call zero_cfg never (enough_fuel zero_cfg) fresh
       (H := main.DefinitelyReachablePTFA) = Val (i, o) s
     ∧ ptfa.call never zero_cfg (enough_fuel zero_cfg) fresh
         (H := ptfa.DefinitelyReachablePTFA) = Val (i', o') s'
     ∧ i !! 1 = Some true ∧ i' !! 1 = Some false ∧ (i, o) ≠ (i', o')) ∧
  (∃ i o s i' o' s',
     main.call zero_cfg never (enough_fuel zero_cfg) fresh
       (H := main.DefinitelyReachingPTFA) = Val (i, o) s
     ∧ ptfa.call never zero_cfg (enough_fuel zero_cfg) fresh
         (H := ptfa.DefinitelyReachingPTFA) = Val (i', o') s'
     ∧ o !! 1 = Some true ∧ o' !! 1 = Some false ∧ (i, o) ≠ (i', o')).
Proof.
  split.
  - eexists _, _, _, _, _, _. split; [vm_compute; reflexivity|].
    split; [vm_compute; reflexivity|].
    split; [vm_compute; reflexivity|]. split; [vm_compute; reflexivity|].
    intros Heq. apply (f_equal (λ r : gmap Z bool * gmap Z bool, r.1 !! 1)) in Heq.
    vm_compute in Heq. discriminate.
  - eexists _, _, _, _, _, _. split; [vm_compute; reflexivity|].
    split; [vm_compute; reflexivity|].
    split; [vm_compute; reflexivity|]. split; [vm_compute; reflexivity|].
    intros Heq. apply (f_equal (λ r : gmap Z bool * gmap Z bool, r.2 !! 1)) in Heq.
    vm_compute in Heq. discriminate.
Qed.

(** * Further properties *)

(** ** The invariants without the event counts *)

Lemma count_ev_nil f : count_ev f [] = 0%nat.
Proof. done. Qed.

Ltac totals :=
  repeat first [rewrite count_ev_cons | rewrite count_ev_app | rewrite count_ev_nil];
  cbn [is_any_push is_any_check is_call length].

Section core_invariants.
Variable d : flow.
Variable cfg : CFG.
Variable p : Z → bool.

Lemma winv_cinv ds s : winv d cfg p ds s → cinv d cfg p ds s.
Proof. intros []. by split. Qed.

Lemma cinv_weaken ds ds' s :
  (∀ k, k ∈ ds' → k ∈ ds) → cinv d cfg p ds s → cinv d cfg p ds' s.
Proof. intros Hsub []; split; auto. Qed.

Lemma cinv_reset :
  cinv d cfg p []
    (mkState ∅ [] (all_true (get_node_ids cfg)) (all_true (get_node_ids cfg)) []).
Proof. apply winv_cinv, winv_reset. Qed.

Lemma cinv_seeded ds s e :
  cinv d cfg p ds s → e ∈ get_node_ids cfg → cinv d cfg p (e :: ds) (seeded d e s).
Proof.
  intros [Hdn Hdf Hwl Hvis Hfv Hnf Hdone Htr] He. split; views.
  - done.
  - intros k. rewrite lookup_insert_is_Some, Hdf.
    split; [by intros [<-|[_ ?]]|]. destruct (decide (e = k)); auto.
  - intros k [->|?]%elem_of_cons; [by apply elem_of_union_l, elem_of_singleton|].
    apply elem_of_union_r. auto.
  - intros k [->%elem_of_singleton|?]%elem_of_union; auto.
  - intros k. destruct (decide (k = e)) as [->|].
    + intros _. by apply elem_of_union_l, elem_of_singleton.
    + rewrite lookup_insert_ne by done. intros ?. apply elem_of_union_r. auto.
  - intros k Hk. destruct (Hnf k Hk) as [Hf Hp]. split; [|done].
    destruct (decide (k = e)) as [->|]; [by rewrite lookup_insert_eq|].
    by rewrite lookup_insert_ne.
  - intros k. destruct (decide (k = e)) as [->|]; [by rewrite lookup_insert_eq|].
    rewrite lookup_insert_ne by done. intros [?|?]%elem_of_cons; [done|auto].
  - constructor; [done|]. constructor; [|done]. cbn.
    apply Hdf in He as [[] ->]; auto.
Qed.

Lemma cinv_checked ds s nid wl b :
  cinv d cfg p ds s → worklist s = nid :: wl → far d s !! nid = Some b →
  cinv d cfg p ds (checked d p nid wl b s).
Proof.
  intros [Hdn Hdf Hwl Hvis Hfv Hnf Hdone Htr] Hw Hb.
  assert (Hin : nid ∈ get_node_ids cfg).
  { apply Hvis, Hwl. rewrite Hw. apply list_elem_of_here. }
  split; views.
  - intros k. rewrite lookup_insert_is_Some, Hdn.
    split; [by intros [<-|[_ ?]]|]. destruct (decide (nid = k)); auto.
  - done.
  - intros k Hk. apply Hwl. rewrite Hw. by apply list_elem_of_further.
  - done.
  - done.
  - intros k. destruct (decide (k = nid)) as [->|].
    + rewrite lookup_insert_eq, Hb. intros [= Hor].
      apply orb_false_iff in Hor as [-> ->]. done.
    + rewrite lookup_insert_ne by done. auto.
  - done.
  - constructor.
    + cbn. apply Hdn in Hin as [a Ha]. rewrite Ha. destruct a; [|left].
      * destruct (b || p nid); auto.
      * destruct (Hnf nid Ha) as [Hf Hp]. rewrite Hb in Hf.
        injection Hf as ->. by rewrite Hp.
    + apply Forall_app. split; [by destruct b; repeat constructor|].
      by repeat constructor.
Qed.

Lemma cinv_pushed ds s m a :
  cinv d cfg p ds s → far d s !! m = Some true → cinv d cfg p ds (pushed d m a s).
Proof.
  intros [Hdn Hdf Hwl Hvis Hfv Hnf Hdone Htr] Hm.
  assert (Hin : m ∈ get_node_ids cfg) by (apply Hdf; eauto).
  split; views.
  - done.
  - intros k. rewrite lookup_insert_is_Some, Hdf.
    split; [by intros [<-|[_ ?]]|]. destruct (decide (m = k)); auto.
  - intros k [->|?]%elem_of_cons; apply elem_of_union; [left|right; auto].
    by apply elem_of_singleton.
  - intros k [->%elem_of_singleton|?]%elem_of_union; auto.
  - intros k. destruct (decide (k = m)) as [->|].
    + intros _. apply elem_of_union. left. by apply elem_of_singleton.
    + rewrite lookup_insert_ne by done. intros ?. apply elem_of_union. auto.
  - intros k Hk. destruct (Hnf k Hk) as [Hf Hp].
    destruct (decide (k = m)) as [->|]; [congruence|].
    by rewrite lookup_insert_ne.
  - intros k Hk. specialize (Hdone k Hk).
    destruct (decide (k = m)) as [->|]; [congruence|].
    by rewrite lookup_insert_ne.
  - constructor; [done|]. constructor; [|done]. cbn. rewrite Hm.
    destruct a; auto.
Qed.

(** Dropping the top of the worklist, as [main.py] does with a falsy id. *)
Lemma cinv_popped ds s nid wl :
  cinv d cfg p ds s → worklist s = nid :: wl → cinv d cfg p ds (popped nid wl s).
Proof.
  intros [Hdn Hdf Hwl Hvis Hfv Hnf Hdone Htr] Hw. split.
  - by destruct d.
  - by destruct d.
  - cbn. intros k Hk. apply Hwl. rewrite Hw. by apply list_elem_of_further.
  - done.
  - by destruct d.
  - by destruct d.
  - by destruct d.
  - cbn. by constructor.
Qed.

(** *** Justified facts and bounded work *)

Lemma weight_seeded s e k : (weight d (seeded d e s) k ≤ weight d s k)%nat.
Proof.
  unfold weight. views. destruct (decide (k = e)) as [->|].
  - rewrite lookup_insert_eq.
    rewrite (bool_decide_eq_true_2 (e ∈ {[e]} ∪ visited s))
      by apply elem_of_union_l, elem_of_singleton, eq_refl. lia.
  - rewrite lookup_insert_ne by done.
    case_bool_decide as Hk'; case_bool_decide as Hk; try lia.
    exfalso. apply Hk'. by apply elem_of_union_r.
Qed.

Lemma total_weight_pushed s m a :
  m ∈ get_node_ids cfg → far d s !! m = Some true → a = false ∨ m ∉ visited s →
  (total (weight d (pushed d m a s)) (get_node_ids cfg)
   < total (weight d s) (get_node_ids cfg))%nat.
Proof.
  intros Hin Hm Hor.
  assert (Hle : ∀ k, (weight d (pushed d m a s) k ≤ weight d s k)%nat).
  { intros k. unfold weight. views. destruct (decide (k = m)) as [->|].
    - rewrite lookup_insert_eq, Hm.
      rewrite (bool_decide_eq_true_2 (m ∈ {[m]} ∪ visited s))
        by apply elem_of_union_l, elem_of_singleton, eq_refl.
      destruct a; lia.
    - rewrite lookup_insert_ne by done.
      case_bool_decide as Hk'; case_bool_decide as Hk; try lia.
      exfalso. apply Hk'. by apply elem_of_union_r. }
  apply (total_lt _ _ _ m); [done..|].
  unfold weight. views. rewrite lookup_insert_eq, Hm.
  rewrite (bool_decide_eq_true_2 (m ∈ {[m]} ∪ visited s))
    by apply elem_of_union_l, elem_of_singleton, eq_refl.
  destruct Hor as [->|Hnv]; [lia|].
  rewrite (bool_decide_eq_false_2 (m ∈ visited s)) by done. destruct a; lia.
Qed.

Lemma jinv_reset :
  jinv d cfg p 0
    (mkState ∅ [] (all_true (get_node_ids cfg)) (all_true (get_node_ids cfg)) []).
Proof.
  split.
  - rewrite (reset_eq d). views. by intros k [_ ?]%lookup_all_true_Some.
  - cbn [trace]. pose proof (total_bound (weight d (mkState ∅ []
      (all_true (get_node_ids cfg)) (all_true (get_node_ids cfg)) []))
      (get_node_ids cfg) 2 (weight_le_2 _ _)). cbn. lia.
  - cbn. lia.
  - cbn. lia.
  - cbn. by intros k ?%elem_of_nil.
Qed.

Lemma jinv_seeded n s e :
  jinv d cfg p n s → e ∈ seeds d cfg → jinv d cfg p (S n) (seeded d e s).
Proof.
  intros [Hfar Hbound Hchecks Hcalls Hcalled] He. split.
  - views. intros k. destruct (decide (k = e)) as [->|].
    + intros _. by apply exposed_seed.
    + rewrite lookup_insert_ne by done. auto.
  - pose proof (total_le (weight d s) (weight d (seeded d e s)) (get_node_ids cfg)
                  (weight_seeded s e)) as Hle.
    remember (total (weight d (seeded d e s)) (get_node_ids cfg)) as T' eqn:HT'.
    clear HT'. views. totals. lia.
  - views. totals. lia.
  - views. totals. lia.
  - views. intros k [?|[?|?]%elem_of_cons]%elem_of_cons; [done..|auto].
Qed.

Lemma jinv_checked n s nid wl b :
  jinv d cfg p n s → worklist s = nid :: wl → far d s !! nid = Some b →
  jinv d cfg p n (checked d p nid wl b s).
Proof.
  intros [Hfar Hbound Hchecks Hcalls Hcalled] Hw Hb.
  rewrite Hw in Hchecks. cbn in Hchecks.
  assert (Hwt : total (weight d (checked d p nid wl b s)) (get_node_ids cfg)
                = total (weight d s) (get_node_ids cfg)).
  { f_equal. unfold weight. by views. }
  split.
  - by views.
  - rewrite Hwt. clear Hwt. views. destruct b; totals; lia.
  - views. destruct b; totals; lia.
  - views. destruct b; totals; lia.
  - views. intros k [?|Hk]%elem_of_cons; [done|]. destruct b; cbn [app] in Hk.
    + apply elem_of_cons in Hk as [?|[?|?]%elem_of_cons]; [done..|auto].
    + apply elem_of_cons in Hk as [[= ->]|[?|[?|?]%elem_of_cons]%elem_of_cons];
        [by apply Hfar|done..|auto].
Qed.

Lemma jinv_pushed ds n s nid m a :
  cinv d cfg p ds s → jinv d cfg p n s →
  near d s !! nid = Some a → m ∈ adjacent d cfg nid →
  far d s !! m = Some true → a = false ∨ m ∉ visited s →
  jinv d cfg p n (pushed d m a s).
Proof.
  intros Hc [Hfar Hbound Hchecks Hcalls Hcalled] Ha Hadj Hm Hor.
  assert (Hin : m ∈ get_node_ids cfg) by (apply (c_dom_far _ _ _ _ _ Hc); eauto).
  split.
  - views. intros k. destruct (decide (k = m)) as [->|].
    + rewrite lookup_insert_eq. intros [= ->].
      destruct (c_near_far _ _ _ _ _ Hc nid Ha) as [Hf Hp].
      by apply (exposed_step d cfg p nid m); [apply Hfar| |].
    + rewrite lookup_insert_ne by done. auto.
  - pose proof (total_weight_pushed s m a Hin Hm Hor) as Hlt.
    remember (total (weight d (pushed d m a s)) (get_node_ids cfg)) as T' eqn:HT'.
    clear HT'. views. totals. lia.
  - views. totals. cbn [length]. lia.
  - views. totals. lia.
  - views. intros k [?|[?|?]%elem_of_cons]%elem_of_cons; [done..|auto].
Qed.

Lemma jinv_popped n s nid wl :
  jinv d cfg p n s → worklist s = nid :: wl → jinv d cfg p n (popped nid wl s).
Proof.
  intros [Hfar Hbound Hchecks Hcalls Hcalled] Hw.
  rewrite Hw in Hchecks. cbn in Hchecks.
  split.
  - by destruct d.
  - replace (total (weight d (popped nid wl s)) (get_node_ids cfg))
      with (total (weight d s) (get_node_ids cfg)) by (by destruct d).
    cbn [popped trace]. totals. lia.
  - cbn [popped trace worklist]. totals. lia.
  - cbn [popped trace]. totals. lia.
  - cbn [popped trace]. intros k [?|?]%elem_of_cons; [done|auto].
Qed.

(** The potential is bounded by the work bound. *)
Lemma potential_bound n s :
  jinv d cfg p n s → (potential d cfg s ≤ 2 * length (get_node_ids cfg) + n)%nat.
Proof. intros [_ Hbound Hchecks _ _]. unfold potential. lia. Qed.
End core_invariants.

(** ** The loops of both files under these invariants *)

Section core_loops.
Variable d : flow.
Variable check_pattern : PatternCheck.
Variable cfg : CFG.

Local Abbreviation p := (check_pattern cfg).

Lemma visit_next_cj ds n nid m s :
  cinv d cfg p ds s → jinv d cfg p n s →
  is_Some (near d s !! nid) → m ∈ adjacent d cfg nid →
  match ptfa.visit_next nid m s (H := analysis d) with
  | Val _ s' =>
      cinv d cfg p ds s' ∧ jinv d cfg p n s' ∧ is_Some (near d s' !! nid) ∧
      (potential d cfg s' ≤ potential d cfg s)%nat
  | Exc e s' => e = KeyError m ∧ (m ∉ get_node_ids cfg) ∧ s' = s
  | Fuel => False
  end.
Proof.
  intros Hc Hj [a Ha] Hadj. destruct (far d s !! m) as [b|] eqn:Hm.
  - rewrite (visit_next_eq d nid m s a b Ha Hm).
    assert (Hin : m ∈ get_node_ids cfg) by (apply (c_dom_far _ _ _ _ _ Hc); eauto).
    destruct (bool_lt a b || bool_decide (m ∉ visited s)) eqn:Hgo; [|eauto].
    assert (b = true) as ->.
    { destruct b; [done|]. exfalso.
      unfold bool_lt in Hgo. rewrite andb_false_r in Hgo. cbn in Hgo.
      apply bool_decide_eq_true in Hgo. apply Hgo.
      by apply (c_far_visited _ _ _ _ _ Hc). }
    assert (Hor : a = false ∨ m ∉ visited s).
    { destruct a; [right|by left]. cbn in Hgo. by apply bool_decide_eq_true in Hgo. }
    split; [by apply cinv_pushed|].
    split; [by apply (jinv_pushed d cfg p ds n s nid m a)|].
    split; [views; eauto|].
    pose proof (total_weight_pushed d cfg s m a Hin Hm Hor) as Hlt.
    unfold potential.
    remember (total (weight d (pushed d m a s)) (get_node_ids cfg)) as T' eqn:HT'.
    clear HT'. views. cbn [length]. lia.
  - rewrite (visit_next_missing d nid m s a Ha Hm).
    split; [done|]. split; [|done].
    intros Hin. apply (c_dom_far _ _ _ _ _ Hc) in Hin as [? ?]. congruence.
Qed.

Lemma for_next_cj ds n nid rest s :
  nid ∈ get_node_ids cfg → (∀ m, m ∈ rest → m ∈ adjacent d cfg nid) →
  cinv d cfg p ds s → jinv d cfg p n s → is_Some (near d s !! nid) →
  match for_each rest (ptfa.visit_next nid (H := analysis d)) s with
  | Val _ s' =>
      cinv d cfg p ds s' ∧ jinv d cfg p n s' ∧
      (potential d cfg s' ≤ potential d cfg s)%nat
  | Exc e s' => dangling d cfg e ∧ cinv d cfg p ds s' ∧ jinv d cfg p n s'
  | Fuel => False
  end.
Proof.
  intros Hnid. revert s. induction rest as [|m rest IH]; intros s Hrest Hc Hj Hnear.
  - cbn. eauto.
  - cbn [for_each]. rewrite bind_unfold.
    assert (Hadj : m ∈ adjacent d cfg nid) by apply Hrest, list_elem_of_here.
    pose proof (visit_next_cj ds n nid m s Hc Hj Hnear Hadj) as Hstep.
    destruct (ptfa.visit_next nid m s) as [[] s1|e s1|]; [| |done].
    + destruct Hstep as (Hc1 & Hj1 & Hnear1 & Hpot1).
      assert (Hrest' : ∀ m', m' ∈ rest → m' ∈ adjacent d cfg nid).
      { intros m' ?. by apply Hrest, list_elem_of_further. }
      specialize (IH s1 Hrest' Hc1 Hj1 Hnear1).
      destruct (for_each rest (ptfa.visit_next nid) s1) as [[] s2|e s2|]; [|done..].
      destruct IH as (? & ? & ?). split; [done|]. split; [done|]. lia.
    + destruct Hstep as (-> & Hnot & ->). split; [|done]. by exists nid, m.
Qed.

(** One turn of the loop body: [nid] popped and checked, its neighbours
    visited. *)
Lemma turn_cj ds n s nid wl b :
  cinv d cfg p ds s → jinv d cfg p n s →
  worklist s = nid :: wl → far d s !! nid = Some b →
  match for_each (adjacent d cfg nid) (ptfa.visit_next nid (H := analysis d))
          (checked d p nid wl b s) with
  | Val _ s' =>
      cinv d cfg p ds s' ∧ jinv d cfg p n s' ∧
      (S (potential d cfg s') ≤ potential d cfg s)%nat
  | Exc e s' => dangling d cfg e ∧ cinv d cfg p ds s' ∧ jinv d cfg p n s'
  | Fuel => False
  end.
Proof.
  intros Hc Hj Hwl Hb.
  assert (Hin : nid ∈ get_node_ids cfg).
  { apply (c_visited _ _ _ _ _ Hc), (c_worklist _ _ _ _ _ Hc).
    rewrite Hwl. apply list_elem_of_here. }
  pose proof (potential_checked d cfg p s nid wl b Hwl) as Hpot.
  pose proof (cinv_checked d cfg p ds s nid wl b Hc Hwl Hb) as Hc1.
  pose proof (jinv_checked d cfg p n s nid wl b Hj Hwl Hb) as Hj1.
  assert (Hnear : is_Some (near d (checked d p nid wl b s) !! nid)).
  { views. rewrite lookup_insert_eq. eauto. }
  pose proof (for_next_cj ds n nid (adjacent d cfg nid) _ Hin (λ _ H, H)
                Hc1 Hj1 Hnear) as Hfor.
  destruct (for_each _ _ _) as [[] s2|e s2|]; [|done..].
  destruct Hfor as (? & ? & ?). split; [done|]. split; [done|]. lia.
Qed.

Lemma while_worklist_cj ds n fuel s :
  cinv d cfg p ds s → jinv d cfg p n s →
  match ptfa.while_worklist check_pattern cfg fuel s (H := analysis d) with
  | Val _ s' => cinv d cfg p ds s' ∧ jinv d cfg p n s'
  | Exc e s' => dangling d cfg e ∧ cinv d cfg p ds s' ∧ jinv d cfg p n s'
  | Fuel => (fuel ≤ potential d cfg s)%nat
  end.
Proof.
  revert s. induction fuel as [|fuel IH]; intros s Hc Hj; [cbn; lia|].
  destruct (worklist s) as [|nid wl] eqn:Hwl.
  - by rewrite while_worklist_nil.
  - assert (Hin : nid ∈ get_node_ids cfg).
    { apply (c_visited _ _ _ _ _ Hc), (c_worklist _ _ _ _ _ Hc).
      rewrite Hwl. apply list_elem_of_here. }
    destruct (proj2 (c_dom_far _ _ _ _ _ Hc nid) Hin) as [b Hb].
    rewrite (while_worklist_cons d check_pattern cfg fuel s nid wl b Hwl Hb).
    rewrite bind_unfold.
    pose proof (turn_cj ds n s nid wl b Hc Hj Hwl Hb) as Hturn.
    destruct (for_each _ _ _) as [[] s2|e s2|]; [|done..].
    destruct Hturn as (Hc2 & Hj2 & Hpot). specialize (IH s2 Hc2 Hj2).
    destruct (ptfa.while_worklist check_pattern cfg fuel s2); [done..|lia].
Qed.

Lemma while_pop_cj ds n fuel s :
  cinv d cfg p ds s → jinv d cfg p n s →
  match suppress_IndexError
          (main.while_pop cfg check_pattern fuel (H := main_analysis d)) s with
  | Val _ s' => cinv d cfg p ds s' ∧ jinv d cfg p n s'
  | Exc e s' => dangling d cfg e ∧ cinv d cfg p ds s' ∧ jinv d cfg p n s'
  | Fuel => (fuel ≤ potential d cfg s)%nat
  end.
Proof.
  revert s. induction fuel as [|fuel IH]; intros s Hc Hj; [cbn; lia|].
  destruct (worklist s) as [|nid wl] eqn:Hwl.
  - unfold suppress_IndexError. by rewrite while_pop_nil.
  - destruct (decide (nid = 0)) as [->|Hne].
    + unfold suppress_IndexError. rewrite (while_pop_zero d check_pattern cfg fuel s wl Hwl).
      split; [by apply (cinv_popped d cfg p ds s 0 wl)|].
      by apply (jinv_popped d cfg p n s 0 wl).
    + assert (Hin : nid ∈ get_node_ids cfg).
      { apply (c_visited _ _ _ _ _ Hc), (c_worklist _ _ _ _ _ Hc).
        rewrite Hwl. apply list_elem_of_here. }
      destruct (proj2 (c_dom_far _ _ _ _ _ Hc nid) Hin) as [b Hb].
      unfold suppress_IndexError at 1.
      rewrite (while_pop_cons d check_pattern cfg fuel s nid wl b Hwl Hne Hb).
      rewrite bind_unfold.
      pose proof (turn_cj ds n s nid wl b Hc Hj Hwl Hb) as Hturn.
      destruct (for_each _ _ _) as [[] s2|e s2|]; [| |done].
      * destruct Hturn as (Hc2 & Hj2 & Hpot). specialize (IH s2 Hc2 Hj2).
        unfold suppress_IndexError in IH.
        destruct (main.while_pop cfg check_pattern fuel s2) as [[] s3|e s3|];
          [done| |lia].
        by destruct e.
      * destruct Hturn as ((k & m & -> & ?) & ? & ?).
        split; [by exists k, m|done].
Qed.

(** The loop over the seeds, for any inner loop that keeps the
    invariants. *)
Lemma seeds_loop_cj fuel (loop : M unit) l :
  (∀ ds n s, cinv d cfg p ds s → jinv d cfg p n s →
     match loop s with
     | Val _ s' => cinv d cfg p ds s' ∧ jinv d cfg p n s'
     | Exc e s' => dangling d cfg e ∧ cinv d cfg p ds s' ∧ jinv d cfg p n s'
     | Fuel => (fuel ≤ potential d cfg s)%nat
     end) →
  ∀ ds n s,
    (∀ e, e ∈ l → e ∈ seeds d cfg) →
    cinv d cfg p ds s → jinv d cfg p n s →
    match for_each ((λ e s, Val tt (seeded d e s)) <$> l) (λ seed, seed;; loop) s with
    | Val _ s' => cinv d cfg p (l ++ ds) s' ∧ jinv d cfg p (n + length l) s'
    | Exc e s' =>
        dangling d cfg e ∧ (∃ ds', cinv d cfg p ds' s') ∧
        ∃ n', (n' ≤ n + length l)%nat ∧ jinv d cfg p n' s'
    | Fuel => (fuel ≤ 2 * length (get_node_ids cfg) + n + length l)%nat
    end.
Proof.
  intros Hloop. induction l as [|e l IH]; intros ds n s Hl Hc Hj.
  - cbn. by rewrite Nat.add_0_r.
  - cbn [fmap list_fmap for_each length]. rewrite !bind_unfold. cbn beta iota.
    assert (He : e ∈ seeds d cfg) by apply Hl, list_elem_of_here.
    pose proof (cinv_seeded d cfg p ds s e Hc (seeds_in_node_ids d cfg e He)) as Hc1.
    pose proof (jinv_seeded d cfg p n s e Hj He) as Hj1.
    pose proof (potential_bound d cfg p (S n) _ Hj1) as Hpot.
    pose proof (Hloop (e :: ds) (S n) _ Hc1 Hj1) as Hwhile.
    destruct (loop (seeded d e s)) as [[] s2|ex s2|]; [| |lia].
    + destruct Hwhile as (Hc2 & Hj2).
      assert (Hl' : ∀ e', e' ∈ l → e' ∈ seeds d cfg).
      { intros e' ?. by apply Hl, list_elem_of_further. }
      specialize (IH (e :: ds) (S n) s2 Hl' Hc2 Hj2).
      destruct (for_each _ _ s2) as [[] s3|ex s3|].
      * destruct IH as (Hc3 & Hj3). split.
        -- eapply cinv_weaken; [|exact Hc3].
           intros k. cbn [app]. rewrite elem_of_cons, !elem_of_app, elem_of_cons. tauto.
        -- by replace (n + S (length l))%nat with (S n + length l)%nat by lia.
      * destruct IH as (? & ? & n' & ? & ?). split; [done|]. split; [done|].
        exists n'. split; [lia|done].
      * lia.
    + destruct Hwhile as (? & ? & ?). split; [done|]. split; [eauto|].
      exists (S n). split; [lia|done].
Qed.

Lemma length_seeds : (length (seeds d cfg) ≤ length (get_node_ids cfg))%nat.
Proof. unfold seeds. apply length_filter. Qed.

(** A call of [ptfa.py]. *)
Lemma call_cj fuel s0 :
  match ptfa.call check_pattern cfg fuel s0 (H := analysis d) with
  | Val r s' =>
      r = result_of s' ∧ cinv d cfg p (seeds d cfg) s' ∧
      jinv d cfg p (length (seeds d cfg)) s'
  | Exc e s' =>
      dangling d cfg e ∧ (∃ ds, cinv d cfg p ds s') ∧
      ∃ n, (n ≤ length (seeds d cfg))%nat ∧ jinv d cfg p n s'
  | Fuel => (fuel < enough_fuel cfg)%nat
  end.
Proof.
  pose proof (call_spec d check_pattern cfg fuel s0) as Hspec.
  unfold ptfa.call, reset, return_dicts in *.
  rewrite pre_loop_init_eq in *. rewrite !bind_unfold in *. cbn beta iota in *.
  pose proof (seeds_loop_cj fuel _ (seeds d cfg)
                (λ ds n s, while_worklist_cj ds n fuel s) [] 0%nat _ (λ _ H, H)
                (cinv_reset d cfg p) (jinv_reset d cfg p)) as Hloop.
  destruct (for_each _ _ _) as [[] s1|e s1|]; [|done..].
  destruct Hloop as (Hc & Hj). rewrite app_nil_r in Hc. done.
Qed.

(** A call of [main.py]. *)
Lemma main_call_cj fuel s0 :
  match main.call cfg check_pattern fuel s0 (H := main_analysis d) with
  | Val r s' =>
      r = result_of s' ∧ cinv d cfg p (seeds d cfg) s' ∧
      jinv d cfg p (length (seeds d cfg)) s'
  | Exc e s' =>
      dangling d cfg e ∧ (∃ ds, cinv d cfg p ds s') ∧
      ∃ n, (n ≤ length (seeds d cfg))%nat ∧ jinv d cfg p n s'
  | Fuel => (fuel < main_enough_fuel cfg)%nat
  end.
Proof.
  unfold main.call, reset, return_dicts.
  rewrite main_pre_loop_init_eq, pre_loop_init_eq. rewrite !bind_unfold. cbn beta iota.
  pose proof (seeds_loop_cj fuel _ (seeds d cfg)
                (λ ds n s, while_pop_cj ds n fuel s) [] 0%nat _ (λ _ H, H)
                (cinv_reset d cfg p) (jinv_reset d cfg p)) as Hloop.
  pose proof length_seeds as Hlen.
  destruct (for_each _ _ _) as [[] s1|e s1|].
  - destruct Hloop as (Hc & Hj). rewrite app_nil_r in Hc. done.
  - done.
  - unfold main_enough_fuel. lia.
Qed.
End core_loops.

(** ** What the returned facts mean *)

Section meaning.
Variable d : flow.
Variable check_pattern : PatternCheck.
Variable cfg : CFG.

Local Abbreviation p := (check_pattern cfg).

Lemma elem_of_seeds e :
  e ∈ seeds d cfg ↔ e ∈ get_node_ids cfg ∧ get_type cfg e = seed_type d.
Proof. unfold seeds. rewrite list_elem_of_filter. tauto. Qed.

Lemma exposed_in_node_ids k :
  closed d cfg → exposed d cfg p k → k ∈ get_node_ids cfg.
Proof.
  intros Hc Hex. induction Hex as [e He|c m _ IH _ Hm].
  - by apply seeds_in_node_ids in He.
  - by apply (Hc c m).
Qed.

Lemma exposed_reached k : exposed d cfg p k → reached d cfg k.
Proof.
  intros Hex. induction Hex as [e He|c m _ IH _ Hm].
  - by apply reached_seed.
  - by apply (reached_step d cfg c m).
Qed.

(** In a settled state every exposed node has a False far fact. *)
Lemma exposed_far_false s k :
  winv d cfg p (seeds d cfg) s → fixpoint d cfg p s →
  exposed d cfg p k → far d s !! k = Some false.
Proof.
  intros Hw Hfix Hex. induction Hex as [e He|c m _ IH Hp Hm].
  - by apply (w_done _ _ _ _ _ Hw).
  - destruct (Hfix c) as [Hn He]. apply (He m Hm).
    unfold node_ok in Hn. by rewrite IH, Hp in Hn.
Qed.

(** The meaning of the two mappings a call of [ptfa.py] returns. *)
Lemma facts_meaning fuel s0 :
  closed d cfg → (enough_fuel cfg ≤ fuel)%nat →
  ∃ s', ptfa.call check_pattern cfg fuel s0 (H := analysis d) = Val (result_of s') s'
    ∧ (∀ k, is_Some (far d s' !! k) ↔ k ∈ get_node_ids cfg)
    ∧ (∀ k, is_Some (near d s' !! k) ↔ k ∈ get_node_ids cfg)
    ∧ (∀ k, far d s' !! k = Some false ↔ exposed d cfg p k)
    ∧ (∀ k, near d s' !! k = Some false ↔ exposed d cfg p k ∧ p k = false).
Proof.
  intros Hc Hfuel.
  destruct (call_returns d check_pattern cfg fuel s0 Hc Hfuel)
    as (s' & Hcall & Hw & Hf & Hwl).
  pose proof (call_cj d check_pattern cfg fuel s0) as Hcj. rewrite Hcall in Hcj.
  destruct Hcj as (_ & _ & Hj).
  assert (Hfix : fixpoint d cfg p s').
  { intros k. apply Hf. rewrite Hwl. apply not_elem_of_nil. }
  assert (Hfar : ∀ k, far d s' !! k = Some false ↔ exposed d cfg p k).
  { intros k. split; [apply (j_far _ _ _ _ _ Hj)|by apply exposed_far_false]. }
  exists s'. split; [done|]. split; [apply (w_dom_far _ _ _ _ _ Hw)|].
  split; [apply (w_dom_near _ _ _ _ _ Hw)|]. split; [done|].
  intros k. split.
  - intros Hk. destruct (w_near_far _ _ _ _ _ Hw k Hk) as [Hfk Hp].
    split; [by apply Hfar|done].
  - intros [Hex Hp]. apply Hfar in Hex. destruct (Hfix k) as [Hn _].
    unfold node_ok in Hn. by rewrite Hex, Hp in Hn.
Qed.
End meaning.

(** Two settled runs whose exposed nodes coincide carry the same facts. *)
Lemma facts_agree (d d' : flow) (cfg cfg' : CFG) (p p' : Z → bool) (s s' : State) :
  (∀ k, k ∈ get_node_ids cfg ↔ k ∈ get_node_ids cfg') →
  (∀ k, k ∈ get_node_ids cfg → p k = p' k) →
  (∀ k, exposed d cfg p k ↔ exposed d' cfg' p' k) →
  (∀ k, is_Some (far d s !! k) ↔ k ∈ get_node_ids cfg) →
  (∀ k, is_Some (near d s !! k) ↔ k ∈ get_node_ids cfg) →
  (∀ k, far d s !! k = Some false ↔ exposed d cfg p k) →
  (∀ k, near d s !! k = Some false ↔ exposed d cfg p k ∧ p k = false) →
  (∀ k, is_Some (far d' s' !! k) ↔ k ∈ get_node_ids cfg') →
  (∀ k, is_Some (near d' s' !! k) ↔ k ∈ get_node_ids cfg') →
  (∀ k, far d' s' !! k = Some false ↔ exposed d' cfg' p' k) →
  (∀ k, near d' s' !! k = Some false ↔ exposed d' cfg' p' k ∧ p' k = false) →
  far d s = far d' s' ∧ near d s = near d' s'.
Proof.
  intros Hids Hp Hex Hdf Hdn Hf Hn Hdf' Hdn' Hf' Hn'.
  assert (Hbool : ∀ (o o' : option bool),
            (is_Some o ↔ is_Some o') → (o = Some false ↔ o' = Some false) → o = o').
  { intros [[]|] [[]|] H1 H2; try done.
    - by destruct (proj2 H2 eq_refl).
    - by destruct (proj1 H1 (mk_is_Some _ _ eq_refl)).
    - by destruct (proj1 H2 eq_refl).
    - by destruct (proj1 H1 (mk_is_Some _ _ eq_refl)).
    - by destruct (proj2 H1 (mk_is_Some _ _ eq_refl)).
    - by destruct (proj2 H1 (mk_is_Some _ _ eq_refl)). }
  split; apply map_eq; intros k; apply Hbool.
  - by rewrite Hdf, Hdf', Hids.
  - by rewrite Hf, Hf', Hex.
  - by rewrite Hdn, Hdn', Hids.
  - rewrite Hn, Hn', Hex. split; intros [Hk Hpk]; split; try done.
    + rewrite <- Hp; [done|]. apply Hdn. apply mk_is_Some with false.
      apply Hn. split; [by apply Hex|done].
    + rewrite Hp; [done|]. apply Hids, Hdn'. apply mk_is_Some with false.
      by apply Hn'.
Qed.



(** X2: what Definitely-Reaching returns on a well-formed graph.  The in
    fact of a node is False exactly when the node is an Entry node or a
    child, through a chain of child links on which the predicate fails, of
    an Entry node; its out fact is False exactly when moreover the
    predicate fails at the node itself. *)
Theorem reaching_facts_meaning (check_pattern : PatternCheck) (cfg : CFG)
    (fuel : nat) (s0 : State) :
  well_formed cfg = true → (enough_fuel cfg ≤ fuel)%nat →
  ∃ i o s', ptfa.call check_pattern cfg fuel s0 (H := ptfa.DefinitelyReachingPTFA)
            = Val (i, o) s'
    ∧ ∀ k, (i !! k = Some false ↔ exposed Forward cfg (check_pattern cfg) k)
         ∧ (o !! k = Some false ↔
              exposed Forward cfg (check_pattern cfg) k ∧ check_pattern cfg k = false).
Proof.
  intros Hwf Hfuel.
  destruct (facts_meaning Forward check_pattern cfg fuel s0
              (well_formed_closed Forward cfg Hwf) Hfuel)
    as (s' & Hcall & _ & _ & Hfar & Hnear).
  exists (in_dict s'), (out_dict s'), s'. split; [done|].
  intros k. split; [apply Hfar|apply Hnear].
Qed.

Lemma reaching_facts_meaning_witness :
  well_formed cyclic_cfg = true ∧ (enough_fuel cyclic_cfg ≤ 10)%nat ∧
  ∃ i o s', ptfa.call main.check_pattern cyclic_cfg 10 fresh
              (H := ptfa.DefinitelyReachingPTFA) = Val (i, o) s'
    ∧ ∀ k, (i !! k = Some false ↔
              exposed Forward cyclic_cfg (main.check_pattern cyclic_cfg) k)
         ∧ (o !! k = Some false ↔
              exposed Forward cyclic_cfg (main.check_pattern cyclic_cfg) k
              ∧ main.check_pattern cyclic_cfg k = false).
Proof.
  split; [reflexivity|]. split; [vm_compute; lia|].
  apply (reaching_facts_meaning main.check_pattern cyclic_cfg 10 fresh);
    [reflexivity|vm_compute; lia].
Defined.

(** ** Independence of the listing order *)

Lemma same_graph_spec cfg cfg' :
  same_graph cfg cfg' = true →
  (∀ k, k ∈ get_node_ids cfg ↔ k ∈ get_node_ids cfg') ∧
  (∀ k, k ∈ get_node_ids cfg →
     get_type cfg k = get_type cfg' k ∧
     ∀ d m, m ∈ adjacent d cfg k ↔ m ∈ adjacent d cfg' k).
Proof.
  unfold same_graph. intros [Hids Hall]%andb_true_iff.
  apply bool_decide_eq_true in Hids. split.
  - intros k. by rewrite <- !(elem_of_list_to_set (C := gset Z)), Hids.
  - intros k Hk. rewrite forallb_forall in Hall.
    apply list_elem_of_In in Hk. specialize (Hall k Hk).
    apply andb_true_iff in Hall as [[Ht Hp]%andb_true_iff Hc].
    apply bool_decide_eq_true in Ht, Hp, Hc. split; [done|].
    intros [] m; cbn; rewrite <- !(elem_of_list_to_set (C := gset Z)).
    + by rewrite Hp.
    + by rewrite Hc.
Qed.

Lemma exposed_transfer d cfg cfg' p p' k :
  closed d cfg →
  (∀ k, k ∈ get_node_ids cfg ↔ k ∈ get_node_ids cfg') →
  (∀ k, k ∈ get_node_ids cfg →
     get_type cfg k = get_type cfg' k ∧
     ∀ m, m ∈ adjacent d cfg k ↔ m ∈ adjacent d cfg' k) →
  (∀ k, k ∈ get_node_ids cfg → p k = p' k) →
  exposed d cfg p k → exposed d cfg' p' k.
Proof.
  intros Hc Hids Hsame Hp Hex. induction Hex as [e He|c m Hexc IH Hpc Hm].
  - apply exposed_seed. apply elem_of_seeds. apply elem_of_seeds in He as [He Ht].
    split; [by apply Hids|]. by rewrite <- (proj1 (Hsame e He)).
  - assert (Hin : c ∈ get_node_ids cfg) by by apply (exposed_in_node_ids d (λ _, p) cfg).
    apply (exposed_step d cfg' p' c m); [done| |].
    + by rewrite <- (Hp c Hin).
    + by apply (proj2 (Hsame c Hin)).
Qed.

Lemma closed_transfer d cfg cfg' :
  closed d cfg →
  (∀ k, k ∈ get_node_ids cfg ↔ k ∈ get_node_ids cfg') →
  (∀ k, k ∈ get_node_ids cfg → ∀ m, m ∈ adjacent d cfg k ↔ m ∈ adjacent d cfg' k) →
  closed d cfg'.
Proof.
  intros Hc Hids Hadj k m Hk Hm. apply Hids in Hk. apply Hids.
  apply (Hc k m Hk). by apply Hadj.
Qed.

(** X3: the returned mappings do not depend on the order in which the
    graph lists its node ids, nor on the order or repetitions inside the
    parent and child lists.  Take two graphs with the same nodes, types and
    neighbours, the first well-formed, and a predicate that gives the same
    answer on both graphs at every node id (the predicate receives the
    graph, so it could tell them apart): the two calls return equal
    (in, out) pairs, for either analysis. *)
Theorem result_independent_of_listing_order (d : flow) (check_pattern : PatternCheck)
    (cfg cfg' : CFG) (fuel fuel' : nat) (s0 s0' : State) :
  well_formed cfg = true → same_graph cfg cfg' = true →
  (∀ k, k ∈ get_node_ids cfg → check_pattern cfg k = check_pattern cfg' k) →
  (enough_fuel cfg ≤ fuel)%nat → (enough_fuel cfg' ≤ fuel')%nat →
  ∃ i o s s',
    ptfa.call check_pattern cfg fuel s0 (H := analysis d) = Val (i, o) s
    ∧ ptfa.call check_pattern cfg' fuel' s0' (H := analysis d) = Val (i, o) s'.
Proof.
  intros Hwf Hsame Hp Hfuel Hfuel'.
  pose proof (well_formed_closed d cfg Hwf) as Hc.
  destruct (same_graph_spec cfg cfg' Hsame) as [Hids Hnodes].
  assert (Hnodes_d : ∀ k, k ∈ get_node_ids cfg →
            get_type cfg k = get_type cfg' k ∧
            ∀ m, m ∈ adjacent d cfg k ↔ m ∈ adjacent d cfg' k).
  { intros k Hk. destruct (Hnodes k Hk) as [? Hadj]. split; [done|apply Hadj]. }
  assert (Hc' : closed d cfg').
  { apply (closed_transfer d cfg cfg' Hc Hids). intros k Hk. apply (Hnodes_d k Hk). }
  destruct (facts_meaning d check_pattern cfg fuel s0 Hc Hfuel)
    as (s & Hcall & Hdf & Hdn & Hf & Hn).
  destruct (facts_meaning d check_pattern cfg' fuel' s0' Hc' Hfuel')
    as (s' & Hcall' & Hdf' & Hdn' & Hf' & Hn').
  assert (Hex : ∀ k, exposed d cfg (check_pattern cfg) k
                     ↔ exposed d cfg' (check_pattern cfg') k).
  { intros k. split.
    - apply (exposed_transfer d cfg cfg'); auto.
    - apply (exposed_transfer d cfg' cfg); auto.
      + intros k'. by rewrite Hids.
      + intros k' Hk'. apply Hids in Hk'. destruct (Hnodes_d k' Hk') as [Ht Hadj].
        split; [done|]. intros m. by rewrite Hadj.
      + intros k' Hk'. apply Hids in Hk'. by rewrite Hp. }
  destruct (facts_agree d d cfg cfg' _ _ s s' Hids Hp Hex
              Hdf Hdn Hf Hn Hdf' Hdn' Hf' Hn') as [Hfar Hnear].
  exists (in_dict s), (out_dict s), s, s'. split; [done|].
  rewrite Hcall'. unfold result_of. destruct d; cbn in Hfar, Hnear; congruence.
Qed.

(** The predicate of [main.py] looks at the type of the node only, so it
    meets the condition on any two such graphs. *)
Lemma check_pattern_same_graph cfg cfg' k :
  same_graph cfg cfg' = true → k ∈ get_node_ids cfg →
  main.check_pattern cfg k = main.check_pattern cfg' k.
Proof.
  intros Hsame Hk. destruct (same_graph_spec cfg cfg' Hsame) as [_ Hnodes].
  unfold main.check_pattern. by rewrite (proj1 (Hnodes k Hk)).
Qed.

Lemma result_independent_of_listing_order_witness :
  well_formed pattern_cfg = true ∧ same_graph pattern_cfg pattern_cfg_shuffled = true ∧
  (∀ k, k ∈ get_node_ids pattern_cfg →
        main.check_pattern pattern_cfg k = main.check_pattern pattern_cfg_shuffled k) ∧
  (enough_fuel pattern_cfg ≤ 8)%nat ∧ (enough_fuel pattern_cfg_shuffled ≤ 9)%nat ∧
  ∃ i o s s',
    ptfa.call main.check_pattern pattern_cfg 8 fresh (H := analysis Backward)
    = Val (i, o) s
    ∧ ptfa.call main.check_pattern pattern_cfg_shuffled 9 fresh (H := analysis Backward)
      = Val (i, o) s'.
Proof.
  assert (Hsame : same_graph pattern_cfg pattern_cfg_shuffled = true)
    by (vm_compute; reflexivity).
  assert (Hp : ∀ k, k ∈ get_node_ids pattern_cfg →
                    main.check_pattern pattern_cfg k
                    = main.check_pattern pattern_cfg_shuffled k).
  { intros k Hk. by apply check_pattern_same_graph. }
  split; [reflexivity|]. split; [exact Hsame|]. split; [exact Hp|].
  split; [vm_compute; lia|]. split; [vm_compute; lia|].
  apply (result_independent_of_listing_order Backward main.check_pattern
           pattern_cfg pattern_cfg_shuffled 8 9 fresh fresh);
    [reflexivity|exact Hsame|exact Hp|vm_compute; lia|vm_compute; lia].
Defined.

(** ** The two analyses are mirror images *)

Lemma swap_type_exit t : swap_type t = "Exit"%string ↔ t = "Entry"%string.
Proof. unfold swap_type. repeat case_decide; split; intros; subst; done. Qed.

Lemma exposed_reverse cfg p k :
  exposed Forward cfg p k ↔ exposed Backward (reverse_cfg cfg) p k.
Proof.
  split; intros Hex.
  - induction Hex as [e He|c m _ IH Hp Hm].
    + apply exposed_seed. apply elem_of_seeds. apply elem_of_seeds in He as [He Ht].
      split; [done|]. by apply swap_type_exit.
    + by apply (exposed_step Backward (reverse_cfg cfg) p c m).
  - induction Hex as [e He|c m _ IH Hp Hm].
    + apply exposed_seed. apply elem_of_seeds. apply elem_of_seeds in He as [He Ht].
      split; [done|]. by apply swap_type_exit.
    + by apply (exposed_step Forward cfg p c m).
Qed.

(** The predicate of [main.py] answers the same on the reversed graph:
    exchanging Entry and Exit leaves the Pattern type alone. *)
Lemma check_pattern_reverse_cfg cfg k :
  main.check_pattern (reverse_cfg cfg) k = main.check_pattern cfg k.
Proof.
  unfold main.check_pattern, reverse_cfg, swap_type. cbn.
  repeat case_decide; repeat case_bool_decide; congruence.
Qed.

(** X4: Definitely-Reaching on a graph is Definitely-Reachable on the
    reversed graph (edges reversed, Entry and Exit exchanged), with the in
    and out mappings exchanged, provided the predicate used on the reversed
    graph answers at every node id as the predicate used on the original
    graph does.  (The predicate receives the graph: one that looks at
    Entry or Exit types or at edges would answer differently.) *)
Theorem reaching_is_reachable_on_reversed_graph (check_pattern check_pattern' : PatternCheck)
    (cfg : CFG) (fuel : nat) (s0 s0' : State) :
  well_formed cfg = true → (enough_fuel cfg ≤ fuel)%nat →
  (∀ k, k ∈ get_node_ids cfg → check_pattern' (reverse_cfg cfg) k = check_pattern cfg k) →
  ∃ i o s s',
    ptfa.call check_pattern cfg fuel s0 (H := ptfa.DefinitelyReachingPTFA) = Val (i, o) s
    ∧ ptfa.call check_pattern' (reverse_cfg cfg) fuel s0'
        (H := ptfa.DefinitelyReachablePTFA) = Val (o, i) s'.
Proof.
  intros Hwf Hfuel Hp.
  pose proof (well_formed_closed Forward cfg Hwf) as Hc.
  assert (Hc' : closed Backward (reverse_cfg cfg)) by exact Hc.
  destruct (facts_meaning Forward check_pattern cfg fuel s0 Hc Hfuel)
    as (s & Hcall & Hdf & Hdn & Hf & Hn).
  destruct (facts_meaning Backward check_pattern' (reverse_cfg cfg) fuel s0'
              Hc' Hfuel) as (s' & Hcall' & Hdf' & Hdn' & Hf' & Hn').
  assert (Hex : ∀ k, exposed Forward cfg (check_pattern cfg) k
                     ↔ exposed Backward (reverse_cfg cfg)
                         (check_pattern' (reverse_cfg cfg)) k).
  { intros k. rewrite exposed_reverse. split.
    - apply (exposed_transfer Backward (reverse_cfg cfg) (reverse_cfg cfg)); auto.
      intros k' Hk'. by rewrite Hp.
    - apply (exposed_transfer Backward (reverse_cfg cfg) (reverse_cfg cfg)); auto. }
  destruct (facts_agree Forward Backward cfg (reverse_cfg cfg) _ _ s s'
              (λ k, reflexivity _) (λ k Hk, eq_sym (Hp k Hk)) Hex
              Hdf Hdn Hf Hn Hdf' Hdn' Hf' Hn') as [Hfar Hnear].
  exists (in_dict s), (out_dict s), s, s'. split; [done|].
  cbn [analysis] in Hcall'. rewrite Hcall'. unfold result_of.
  cbn in Hfar, Hnear. congruence.
Qed.

Lemma reaching_is_reachable_on_reversed_graph_witness :
  well_formed pattern_cfg = true ∧ (enough_fuel pattern_cfg ≤ 8)%nat ∧
  (∀ k, k ∈ get_node_ids pattern_cfg →
        main.check_pattern (reverse_cfg pattern_cfg) k = main.check_pattern pattern_cfg k) ∧
  ∃ i o s s',
    ptfa.call main.check_pattern pattern_cfg 8 fresh (H := ptfa.DefinitelyReachingPTFA)
    = Val (i, o) s
    ∧ ptfa.call main.check_pattern (reverse_cfg pattern_cfg) 8 fresh
        (H := ptfa.DefinitelyReachablePTFA) = Val (o, i) s'.
Proof.
  assert (Hp : ∀ k, k ∈ get_node_ids pattern_cfg →
                    main.check_pattern (reverse_cfg pattern_cfg) k
                    = main.check_pattern pattern_cfg k).
  { intros k _. apply check_pattern_reverse_cfg. }
  split; [reflexivity|]. split; [vm_compute; lia|]. split; [exact Hp|].
  apply (reaching_is_reachable_on_reversed_graph main.check_pattern main.check_pattern
           pattern_cfg 8 fresh fresh); [reflexivity|vm_compute; lia|exact Hp].
Defined.

(** ** Bounded work *)

(** X5: in a run of [ptfa.py], whether it returns or raises, the
    predicate is called no more often than nodes are checked, nodes are
    checked no more often than they are pushed, and at most
    [2 * |node ids| + |seeds|] pushes happen. *)
Theorem predicate_calls_bounded (d : flow) (check_pattern : PatternCheck) (cfg : CFG)
    (fuel : nat) (s0 : State) :
  (enough_fuel cfg ≤ fuel)%nat →
  ∃ s', (ptfa.call check_pattern cfg fuel s0 (H := analysis d) = Val (result_of s') s'
         ∨ ∃ e, ptfa.call check_pattern cfg fuel s0 (H := analysis d) = Exc e s')
    ∧ (count_ev is_call (trace s') ≤ count_ev is_any_check (trace s'))%nat
    ∧ (count_ev is_any_check (trace s') ≤ count_ev is_any_push (trace s'))%nat
    ∧ (count_ev is_any_push (trace s')
       ≤ 2 * length (get_node_ids cfg) + length (seeds d cfg))%nat.
Proof.
  intros Hfuel. pose proof (call_cj d check_pattern cfg fuel s0) as Hcj.
  destruct (ptfa.call _ _ _ _) as [r s'|e s'|]; [| |lia].
  - destruct Hcj as (-> & _ & [_ Hb Hc Hp _]). exists s'. split; [by left|]. lia.
  - destruct Hcj as (_ & _ & n & Hn & [_ Hb Hc Hp _]). exists s'.
    split; [right; by exists e|]. lia.
Qed.

Lemma predicate_calls_bounded_witness :
  (enough_fuel cyclic_cfg ≤ 10)%nat ∧
  ∃ s', (ptfa.call never cyclic_cfg 10 fresh (H := analysis Backward)
         = Val (result_of s') s'
         ∨ ∃ e, ptfa.call never cyclic_cfg 10 fresh (H := analysis Backward) = Exc e s')
    ∧ (count_ev is_call (trace s') ≤ count_ev is_any_check (trace s'))%nat
    ∧ (count_ev is_any_check (trace s') ≤ count_ev is_any_push (trace s'))%nat
    ∧ (count_ev is_any_push (trace s')
       ≤ 2 * length (get_node_ids cyclic_cfg) + length (seeds Backward cyclic_cfg))%nat.
Proof.
  split; [vm_compute; lia|].
  apply (predicate_calls_bounded Backward never cyclic_cfg 10 fresh). vm_compute; lia.
Defined.

(** ** [main.py] on its own *)

(** X6: a call of [main.py] returns on every well-formed graph, node id
    [0] included, as soon as the fuel is at least [3 * |node ids| + 2], and
    both returned mappings have exactly the node ids as keys. *)
Theorem main_call_returns_total_mappings (d : flow) (check_pattern : PatternCheck)
    (cfg : CFG) (fuel : nat) (s0 : State) :
  well_formed cfg = true → (main_enough_fuel cfg ≤ fuel)%nat →
  ∃ i o s', main.call cfg check_pattern fuel s0 (H := main_analysis d) = Val (i, o) s'
            ∧ dom i = list_to_set (get_node_ids cfg)
            ∧ dom o = list_to_set (get_node_ids cfg).
Proof.
  intros Hwf Hfuel. pose proof (main_call_cj d check_pattern cfg fuel s0) as Hcj.
  destruct (main.call _ _ _ _) as [r s'|e s'|]; [| |lia].
  - destruct Hcj as (-> & Hc & _). exists (in_dict s'), (out_dict s'), s'.
    split; [done|].
    pose proof (c_dom_near _ _ _ _ _ Hc) as Hn. pose proof (c_dom_far _ _ _ _ _ Hc) as Hf.
    split; apply set_eq; intros k; rewrite elem_of_dom, elem_of_list_to_set;
      destruct d; cbn in Hn, Hf; auto.
  - destruct Hcj as [Hd _].
    by apply (closed_not_dangling d cfg e (well_formed_closed d cfg Hwf)) in Hd.
Qed.

Lemma main_call_returns_total_mappings_witness :
  well_formed zero_cfg = true ∧ (main_enough_fuel zero_cfg ≤ 14)%nat ∧
  ∃ i o s', main.call zero_cfg never 14 fresh (H := main_analysis Backward) = Val (i, o) s'
            ∧ dom i = list_to_set (get_node_ids zero_cfg)
            ∧ dom o = list_to_set (get_node_ids zero_cfg).
Proof.
  split; [reflexivity|]. split; [vm_compute; lia|].
  apply (main_call_returns_total_mappings Backward never zero_cfg 14 fresh);
    [reflexivity|vm_compute; lia].
Defined.


(** X8: every write of a run of [main.py] keeps the fact or lowers it
    from True to False, and in the mappings it returns the out fact of
    every Exit node (Definitely-Reachable) or the in fact of every Entry
    node (Definitely-Reaching) is False, also when the loop stopped on node
    id [0]. *)
Theorem main_monotone_and_seed_boundary (d : flow) (check_pattern : PatternCheck)
    (cfg : CFG) (fuel : nat) (s0 : State) :
  (main_enough_fuel cfg ≤ fuel)%nat →
  match main.call cfg check_pattern fuel s0 (H := main_analysis d) with
  | Val r s' =>
      r = (in_dict s', out_dict s') ∧ Forall mono_event (trace s') ∧
      ∀ e, e ∈ get_node_ids cfg → get_type cfg e = seed_type d →
           dict (far_id d) s' !! e = Some false
  | Exc _ s' => Forall mono_event (trace s')
  | Fuel => False
  end.
Proof.
  intros Hfuel. pose proof (main_call_cj d check_pattern cfg fuel s0) as Hcj.
  destruct (main.call _ _ _ _) as [r s'|e s'|]; [| |lia].
  - destruct Hcj as (-> & Hc & _). split; [done|].
    split; [apply (c_trace _ _ _ _ _ Hc)|]. intros e He Ht.
    apply (c_done _ _ _ _ _ Hc). by apply elem_of_seeds.
  - destruct Hcj as (_ & (ds & Hc) & _). apply (c_trace _ _ _ _ _ Hc).
Qed.

Lemma main_monotone_and_seed_boundary_witness :
  (main_enough_fuel zero_cfg ≤ 14)%nat ∧
  match main.call zero_cfg never 14 fresh (H := main_analysis Backward) with
  | Val r s' =>
      r = (in_dict s', out_dict s') ∧ Forall mono_event (trace s') ∧
      ∀ e, e ∈ get_node_ids zero_cfg → get_type zero_cfg e = seed_type Backward →
           dict (far_id Backward) s' !! e = Some false
  | Exc _ s' => Forall mono_event (trace s')
  | Fuel => False
  end.
Proof.
  split; [vm_compute; lia|].
  apply (main_monotone_and_seed_boundary Backward never zero_cfg 14 fresh).
  vm_compute; lia.
Defined.


(** X10: [main.py] never lowers a fact without cause.  In the mappings
    it returns, a False far fact means the node is exposed and a False
    near fact means moreover that the predicate fails there; so on a
    well-formed graph every fact that [main.py] returns False is also False
    in what [ptfa.py] returns. *)
Theorem main_false_facts_are_false_in_ptfa (d : flow) (check_pattern : PatternCheck)
    (cfg : CFG) (fuel : nat) (s0 : State) :
  well_formed cfg = true → (main_enough_fuel cfg ≤ fuel)%nat →
  ∃ i o s i' o' s',
    main.call cfg check_pattern fuel s0 (H := main_analysis d) = Val (i, o) s
    ∧ ptfa.call check_pattern cfg fuel s0 (H := analysis d) = Val (i', o') s'
    ∧ (∀ k, dict (far_id d) s !! k = Some false → exposed d cfg (check_pattern cfg) k)
    ∧ (∀ k, i !! k = Some false → i' !! k = Some false)
    ∧ (∀ k, o !! k = Some false → o' !! k = Some false).
Proof.
  intros Hwf Hfuel. pose proof (well_formed_closed d cfg Hwf) as Hcl.
  assert (Hfuel' : (enough_fuel cfg ≤ fuel)%nat).
  { unfold main_enough_fuel, enough_fuel in *. lia. }
  destruct (facts_meaning d check_pattern cfg fuel s0 Hcl Hfuel')
    as (s' & Hcall' & _ & _ & Hf' & Hn').
  pose proof (main_call_cj d check_pattern cfg fuel s0) as Hcj.
  destruct (main.call _ _ _ _) as [r s|e s|]; [| |lia].
  2: { destruct Hcj as [Hd _]. by apply (closed_not_dangling d cfg e Hcl) in Hd. }
  destruct Hcj as (-> & Hc & Hj).
  exists (in_dict s), (out_dict s), s, (in_dict s'), (out_dict s'), s'.
  split; [done|]. split; [done|]. split; [apply (j_far _ _ _ _ _ Hj)|].
  assert (Hfar : ∀ k, far d s !! k = Some false → far d s' !! k = Some false).
  { intros k Hk. apply Hf'. by apply (j_far _ _ _ _ _ Hj). }
  assert (Hnear : ∀ k, near d s !! k = Some false → near d s' !! k = Some false).
  { intros k Hk. apply Hn'. destruct (c_near_far _ _ _ _ _ Hc k Hk) as [Hfk Hp].
    split; [by apply (j_far _ _ _ _ _ Hj)|done]. }
  destruct d; cbn in Hfar, Hnear; auto.
Qed.

Lemma main_false_facts_are_false_in_ptfa_witness :
  well_formed zero_cfg = true ∧ (main_enough_fuel zero_cfg ≤ 14)%nat ∧
  ∃ i o s i' o' s',
    main.call zero_cfg never 14 fresh (H := main_analysis Backward) = Val (i, o) s
    ∧ ptfa.call never zero_cfg 14 fresh (H := analysis Backward) = Val (i', o') s'
    ∧ (∀ k, dict (far_id Backward) s !! k = Some false →
            exposed Backward zero_cfg (never zero_cfg) k)
    ∧ (∀ k, i !! k = Some false → i' !! k = Some false)
    ∧ (∀ k, o !! k = Some false → o' !! k = Some false).
Proof.
  split; [reflexivity|]. split; [vm_compute; lia|].
  apply (main_false_facts_are_false_in_ptfa Backward never zero_cfg 14 fresh);
    [reflexivity|vm_compute; lia].
Defined.

(** X11: without a node of the seeding category a call of [main.py]
    returns the initial all-True mappings, for any fuel, and its trace is
    empty: nothing was written and the predicate was not called. *)
Theorem main_no_seeds_all_true (d : flow) (check_pattern : PatternCheck) (cfg : CFG)
    (fuel : nat) (s0 : State) :
  seeds d cfg = [] →
  ∃ i o s', main.call cfg check_pattern fuel s0 (H := main_analysis d) = Val (i, o) s'
    ∧ i = all_true (get_node_ids cfg) ∧ o = all_true (get_node_ids cfg)
    ∧ (∀ k, k ∈ get_node_ids cfg → i !! k = Some true ∧ o !! k = Some true)
    ∧ trace s' = [].
Proof.
  intros Hs.
  exists (all_true (get_node_ids cfg)), (all_true (get_node_ids cfg)),
    (mkState ∅ [] (all_true (get_node_ids cfg)) (all_true (get_node_ids cfg)) []).
  split.
  { unfold main.call. by rewrite main_pre_loop_init_eq, pre_loop_init_eq, Hs. }
  split; [done|]. split; [done|]. split; [|done].
  intros k Hk. rewrite lookup_all_true. by rewrite bool_decide_eq_true_2.
Qed.

Lemma main_no_seeds_all_true_witness :
  seeds Forward lonely_exit_cfg = [] ∧
  ∃ i o s', main.call lonely_exit_cfg always 0 fresh (H := main_analysis Forward)
            = Val (i, o) s'
    ∧ i = all_true (get_node_ids lonely_exit_cfg)
    ∧ o = all_true (get_node_ids lonely_exit_cfg)
    ∧ (∀ k, k ∈ get_node_ids lonely_exit_cfg → i !! k = Some true ∧ o !! k = Some true)
    ∧ trace s' = [].
Proof.
  split; [reflexivity|].
  apply (main_no_seeds_all_true Forward always lonely_exit_cfg 0 fresh). reflexivity.
Defined.

(** ** Every reached node is visited *)

Section visiting.
Variable d : flow.
Variable check_pattern : PatternCheck.
Variable cfg : CFG.

Local Abbreviation p := (check_pattern cfg).

Lemma vinv_reset :
  vinv d cfg (mkState ∅ [] (all_true (get_node_ids cfg)) (all_true (get_node_ids cfg)) []).
Proof. intros k Hk. by apply not_elem_of_empty in Hk. Qed.

Lemma vinv_seeded s e : vinv d cfg s → vinv d cfg (seeded d e s).
Proof.
  intros Hv k. views. intros Hk [Hne Hnot]%not_elem_of_cons m Hm.
  apply elem_of_union_r. apply (Hv k); [|done..].
  apply elem_of_union in Hk as [?%elem_of_singleton|?]; done.
Qed.

Lemma vlinv_checked s nid wl b :
  vinv d cfg s → worklist s = nid :: wl →
  vlinv d cfg nid (adjacent d cfg nid) (checked d p nid wl b s).
Proof.
  intros Hv Hw. split; views.
  - intros k Hk Hnot Hne. apply (Hv k Hk). rewrite Hw. by apply not_elem_of_cons.
  - right. intros m Hm. by left.
Qed.

Lemma vlinv_pushed s nid m rest a :
  vlinv d cfg nid (m :: rest) s → vlinv d cfg nid rest (pushed d m a s).
Proof.
  intros [Hothers Hnid]. split; views.
  - intros k Hk [Hkm Hnot]%not_elem_of_cons Hne m' Hm'. apply elem_of_union_r.
    apply (Hothers k); [|done..].
    apply elem_of_union in Hk as [?%elem_of_singleton|?]; done.
  - destruct Hnid as [?|Hall]; [left; by apply list_elem_of_further|].
    right. intros m' Hm'. destruct (Hall m' Hm') as [[->|?]%elem_of_cons|?].
    + right. by apply elem_of_union_l, elem_of_singleton.
    + by left.
    + right. by apply elem_of_union_r.
Qed.

Lemma vlinv_skipped s nid m rest :
  vlinv d cfg nid (m :: rest) s → m ∈ visited s → vlinv d cfg nid rest s.
Proof.
  intros [Hothers Hnid] Hm. split; [done|].
  destruct Hnid as [?|Hall]; [by left|]. right. intros m' Hm'.
  destruct (Hall m' Hm') as [[->|?]%elem_of_cons|?]; auto.
Qed.

Lemma vlinv_nil_vinv s nid : vlinv d cfg nid [] s → vinv d cfg s.
Proof.
  intros [Hothers Hnid] k Hk Hnot m Hm.
  destruct (decide (k = nid)) as [->|Hne]; [|by apply (Hothers k)].
  destruct Hnid as [?|Hall]; [done|].
  destruct (Hall m Hm) as [?%elem_of_nil|?]; done.
Qed.

Lemma visit_next_v nid m rest s :
  is_Some (near d s !! nid) → vlinv d cfg nid (m :: rest) s →
  match ptfa.visit_next nid m s (H := analysis d) with
  | Val _ s' => vlinv d cfg nid rest s'
  | _ => True
  end.
Proof.
  intros [a Ha] Hv. destruct (far d s !! m) as [b|] eqn:Hm.
  - rewrite (visit_next_eq d nid m s a b Ha Hm).
    destruct (bool_lt a b || bool_decide (m ∉ visited s)) eqn:Hgo.
    + by apply vlinv_pushed.
    + apply orb_false_iff in Hgo as [_ Hvis]. apply bool_decide_eq_false in Hvis.
      apply (vlinv_skipped s nid m rest Hv). by apply dec_stable.
  - by rewrite (visit_next_missing d nid m s a Ha Hm).
Qed.

Lemma for_next_v ds n nid rest s :
  nid ∈ get_node_ids cfg → (∀ m, m ∈ rest → m ∈ adjacent d cfg nid) →
  cinv d cfg p ds s → jinv d cfg p n s → is_Some (near d s !! nid) →
  vlinv d cfg nid rest s →
  match for_each rest (ptfa.visit_next nid (H := analysis d)) s with
  | Val _ s' => vlinv d cfg nid [] s'
  | _ => True
  end.
Proof.
  intros Hnid. revert s. induction rest as [|m rest IH]; intros s Hrest Hc Hj Hnear Hv.
  - done.
  - cbn [for_each]. rewrite bind_unfold.
    assert (Hadj : m ∈ adjacent d cfg nid) by apply Hrest, list_elem_of_here.
    pose proof (visit_next_cj d check_pattern cfg ds n nid m s Hc Hj Hnear Hadj) as Hstep.
    pose proof (visit_next_v nid m rest s Hnear Hv) as Hv1.
    destruct (ptfa.visit_next nid m s) as [[] s1|e s1|]; [|done..].
    destruct Hstep as (Hc1 & Hj1 & Hnear1 & _).
    apply (IH s1); [|done..].
    intros m' ?. by apply Hrest, list_elem_of_further.
Qed.

Lemma while_worklist_v ds n fuel s :
  cinv d cfg p ds s → jinv d cfg p n s → vinv d cfg s →
  match ptfa.while_worklist check_pattern cfg fuel s (H := analysis d) with
  | Val _ s' => vinv d cfg s' ∧ worklist s' = []
  | _ => True
  end.
Proof.
  revert s. induction fuel as [|fuel IH]; intros s Hc Hj Hv; [done|].
  destruct (worklist s) as [|nid wl] eqn:Hwl.
  - by rewrite while_worklist_nil.
  - assert (Hin : nid ∈ get_node_ids cfg).
    { apply (c_visited _ _ _ _ _ Hc), (c_worklist _ _ _ _ _ Hc).
      rewrite Hwl. apply list_elem_of_here. }
    destruct (proj2 (c_dom_far _ _ _ _ _ Hc nid) Hin) as [b Hb].
    rewrite (while_worklist_cons d check_pattern cfg fuel s nid wl b Hwl Hb).
    rewrite bind_unfold.
    pose proof (turn_cj d check_pattern cfg ds n s nid wl b Hc Hj Hwl Hb) as Hturn.
    assert (Hnear : is_Some (near d (checked d p nid wl b s) !! nid)).
    { views. rewrite lookup_insert_eq. eauto. }
    pose proof (for_next_v ds n nid (adjacent d cfg nid) _ Hin (λ _ H, H)
                  (cinv_checked d cfg p ds s nid wl b Hc Hwl Hb)
                  (jinv_checked d cfg p n s nid wl b Hj Hwl Hb) Hnear
                  (vlinv_checked s nid wl b Hv Hwl)) as Hfor.
    destruct (for_each _ _ _) as [[] s2|e s2|]; [|done..].
    destruct Hturn as (Hc2 & Hj2 & _).
    apply (IH s2 Hc2 Hj2). by apply (vlinv_nil_vinv s2 nid).
Qed.

Lemma seeds_loop_v fuel l ds n s :
  (∀ e, e ∈ l → e ∈ seeds d cfg) →
  cinv d cfg p ds s → jinv d cfg p n s → vinv d cfg s → worklist s = [] →
  match for_each ((λ e s, Val tt (seeded d e s)) <$> l)
          (λ seed, seed;; ptfa.while_worklist check_pattern cfg fuel (H := analysis d)) s
  with
  | Val _ s' => vinv d cfg s' ∧ worklist s' = []
  | _ => True
  end.
Proof.
  revert ds n s. induction l as [|e l IH]; intros ds n s Hl Hc Hj Hv Hwl; [done|].
  cbn [fmap list_fmap for_each]. rewrite !bind_unfold. cbn beta iota.
  assert (He : e ∈ seeds d cfg) by apply Hl, list_elem_of_here.
  pose proof (cinv_seeded d cfg p ds s e Hc (seeds_in_node_ids d cfg e He)) as Hc1.
  pose proof (jinv_seeded d cfg p n s e Hj He) as Hj1.
  pose proof (while_worklist_cj d check_pattern cfg (e :: ds) (S n) fuel _ Hc1 Hj1)
    as Hcj.
  pose proof (while_worklist_v (e :: ds) (S n) fuel _ Hc1 Hj1 (vinv_seeded s e Hv))
    as Hwhile.
  destruct (ptfa.while_worklist check_pattern cfg fuel (seeded d e s))
    as [[] s2|ex s2|]; [|done..].
  destruct Hcj as (Hc2 & Hj2). destruct Hwhile as (Hv2 & Hwl2).
  apply (IH (e :: ds) (S n) s2); [|done..].
  intros e' ?. by apply Hl, list_elem_of_further.
Qed.

Lemma call_v fuel s0 :
  match ptfa.call check_pattern cfg fuel s0 (H := analysis d) with
  | Val _ s' => vinv d cfg s' ∧ worklist s' = []
  | _ => True
  end.
Proof.
  unfold ptfa.call, reset, return_dicts.
  rewrite pre_loop_init_eq. rewrite !bind_unfold. cbn beta iota.
  pose proof (seeds_loop_v fuel (seeds d cfg) [] 0%nat _ (λ _ H, H)
                (cinv_reset d cfg p) (jinv_reset d cfg p) vinv_reset eq_refl) as Hloop.
  by destruct (for_each _ _ _) as [[] s1|e s1|].
Qed.

Lemma reached_visited s k :
  cinv d cfg p (seeds d cfg) s → vinv d cfg s → worklist s = [] →
  reached d cfg k → k ∈ visited s.
Proof.
  intros Hc Hv Hwl Hr. induction Hr as [e He|c m _ IH Hm].
  - by apply (c_far_visited _ _ _ _ _ Hc), (c_done _ _ _ _ _ Hc).
  - apply (Hv c IH); [|done]. rewrite Hwl. apply not_elem_of_nil.
Qed.
End visiting.

(** X12: a malformed graph is always found out.  When some node that
    can be reached from a seed along the followed adjacency has a neighbour
    that is not a node id, a call of [ptfa.py] does not return: it raises
    the [KeyError] of a dangling neighbour. *)
Theorem reached_dangling_neighbour_raises (d : flow) (check_pattern : PatternCheck)
    (cfg : CFG) (fuel : nat) (s0 : State) (k m : Z) :
  reached d cfg k → m ∈ adjacent d cfg k → m ∉ get_node_ids cfg →
  (enough_fuel cfg ≤ fuel)%nat →
  ∃ e s', ptfa.call check_pattern cfg fuel s0 (H := analysis d) = Exc e s'
          ∧ dangling d cfg e.
Proof.
  intros Hr Hm Hnot Hfuel.
  pose proof (call_cj d check_pattern cfg fuel s0) as Hcj.
  pose proof (call_v d check_pattern cfg fuel s0) as Hv.
  destruct (ptfa.call _ _ _ _) as [r s'|e s'|]; [| |lia].
  - exfalso. destruct Hcj as (_ & Hc & _). destruct Hv as [Hv Hwl].
    pose proof (reached_visited d check_pattern cfg s' k Hc Hv Hwl Hr) as Hk.
    apply Hnot, (c_visited _ _ _ _ _ Hc). apply (Hv k Hk); [|done].
    rewrite Hwl. apply not_elem_of_nil.
  - exists e, s'. split; [done|]. by destruct Hcj.
Qed.

Lemma reached_dangling_neighbour_raises_witness :
  reached Backward dangling_cfg 2 ∧ 9 ∈ adjacent Backward dangling_cfg 2 ∧
  (9 ∉ get_node_ids dangling_cfg) ∧ (enough_fuel dangling_cfg ≤ 6)%nat ∧
  ∃ e s', ptfa.call always dangling_cfg 6 fresh (H := analysis Backward) = Exc e s'
          ∧ dangling Backward dangling_cfg e.
Proof.
  assert (Hr : reached Backward dangling_cfg 2) by (apply reached_seed; compute_done).
  assert (Hm : 9 ∈ adjacent Backward dangling_cfg 2) by compute_done.
  assert (Hn : 9 ∉ get_node_ids dangling_cfg) by compute_done.
  split; [exact Hr|]. split; [exact Hm|]. split; [exact Hn|]. split; [vm_compute; lia|].
  apply (reached_dangling_neighbour_raises Backward always dangling_cfg 6 fresh 2 9
           Hr Hm Hn).
  vm_compute; lia.
Defined.

(** ** Where the predicate is called *)

(** X13: in a run of [ptfa.py], whether it returns or raises, the
    predicate is called at exposed nodes only: at a seed, or at a node to
    which a False fact has flowed from a seed.  A node whose far fact is
    still True when it is checked costs no predicate call. *)
Theorem predicate_called_only_at_exposed_nodes (d : flow) (check_pattern : PatternCheck)
    (cfg : CFG) (fuel : nat) (s0 : State) :
  (enough_fuel cfg ≤ fuel)%nat →
  ∃ s', (ptfa.call check_pattern cfg fuel s0 (H := analysis d) = Val (result_of s') s'
         ∨ ∃ e, ptfa.call check_pattern cfg fuel s0 (H := analysis d) = Exc e s')
    ∧ ∀ k, ECall k ∈ trace s' → exposed d cfg (check_pattern cfg) k.
Proof.
  intros Hfuel. pose proof (call_cj d check_pattern cfg fuel s0) as Hcj.
  destruct (ptfa.call _ _ _ _) as [r s'|e s'|]; [| |lia].
  - destruct Hcj as (-> & _ & Hj). exists s'. split; [by left|].
    apply (j_called _ _ _ _ _ Hj).
  - destruct Hcj as (_ & _ & n & _ & Hj). exists s'. split; [right; by exists e|].
    apply (j_called _ _ _ _ _ Hj).
Qed.

Lemma predicate_called_only_at_exposed_nodes_witness :
  (enough_fuel cyclic_cfg ≤ 10)%nat ∧
  ∃ s', (ptfa.call (only_at 3) cyclic_cfg 10 fresh (H := analysis Forward)
         = Val (result_of s') s'
         ∨ ∃ e, ptfa.call (only_at 3) cyclic_cfg 10 fresh (H := analysis Forward)
                = Exc e s')
    ∧ ∀ k, ECall k ∈ trace s' → exposed Forward cyclic_cfg (only_at 3 cyclic_cfg) k.
Proof.
  split; [vm_compute; lia|].
  apply (predicate_called_only_at_exposed_nodes Forward (only_at 3) cyclic_cfg 10 fresh).
  vm_compute; lia.
Defined.

(** ** Predicates that may raise *)

Section raising.
Variable d : flow.
Variable check_pattern : RaisingCheck.
Variable cfg : CFG.

Local Abbreviation p := (answer check_pattern cfg).

Lemma while_worklist_raising_nil fuel s :
  worklist s = [] → while_worklist_raising d check_pattern cfg (S fuel) s = Val tt s.
Proof. intros Hw. cbn. prims. by rewrite Hw. Qed.

Lemma while_worklist_raising_cons fuel s nid wl b v :
  worklist s = nid :: wl → far d s !! nid = Some b → check_pattern cfg nid = inr v →
  while_worklist_raising d check_pattern cfg (S fuel) s
  = (for_each (adjacent d cfg nid) (ptfa.visit_next nid (H := analysis d));;
     while_worklist_raising d check_pattern cfg fuel) (checked d p nid wl b s).
Proof.
  intros Hw Hb Hv. rewrite <- next_nodes_eq.
  destruct d; cbn in Hb |- *;
    unfold check_node_raising, call_raising, checked, answer; prims;
    repeat (rewrite ?Hw, ?Hb, ?Hv; cbn); by destruct b.
Qed.

Lemma while_pop_raising_nil fuel s :
  worklist s = [] → while_pop_raising d cfg check_pattern (S fuel) s = Exc IndexError s.
Proof. intros Hw. cbn. prims. by rewrite Hw. Qed.

Lemma while_pop_raising_zero fuel s wl :
  worklist s = 0 :: wl →
  while_pop_raising d cfg check_pattern (S fuel) s = Val tt (popped 0 wl s).
Proof. intros Hw. cbn. prims. by rewrite Hw. Qed.

Lemma while_pop_raising_cons fuel s nid wl b v :
  worklist s = nid :: wl → nid ≠ 0 → far d s !! nid = Some b →
  check_pattern cfg nid = inr v →
  while_pop_raising d cfg check_pattern (S fuel) s
  = (for_each (adjacent d cfg nid) (ptfa.visit_next nid (H := analysis d));;
     while_pop_raising d cfg check_pattern fuel) (checked d p nid wl b s).
Proof.
  intros Hw Hne Hb Hv. rewrite <- next_nodes_eq, <- main_visit_next_eq.
  destruct d; cbn in Hb |- *;
    unfold check_node_raising, call_raising, checked, answer; prims;
    repeat (rewrite ?Hw, ?Hb, ?Hv; cbn);
    rewrite (bool_decide_eq_true_2 (nid ≠ 0)) by done;
    repeat (rewrite ?Hw, ?Hb, ?Hv; cbn); by destruct b.
Qed.

(** With a predicate that returns at the node ids, the loops are those of
    the engines with a total predicate. *)
Lemma while_worklist_raising_eq ds n fuel s :
  returns_on check_pattern cfg → cinv d cfg p ds s → jinv d cfg p n s →
  while_worklist_raising d check_pattern cfg fuel s
  = ptfa.while_worklist (answer check_pattern) cfg fuel s (H := analysis d).
Proof.
  intros Hret. revert s. induction fuel as [|fuel IH]; intros s Hc Hj; [done|].
  destruct (worklist s) as [|nid wl] eqn:Hwl.
  - by rewrite while_worklist_raising_nil, while_worklist_nil.
  - assert (Hin : nid ∈ get_node_ids cfg).
    { apply (c_visited _ _ _ _ _ Hc), (c_worklist _ _ _ _ _ Hc).
      rewrite Hwl. apply list_elem_of_here. }
    destruct (proj2 (c_dom_far _ _ _ _ _ Hc nid) Hin) as [b Hb].
    destruct (Hret nid Hin) as [v Hv].
    rewrite (while_worklist_raising_cons fuel s nid wl b v Hwl Hb Hv).
    rewrite (while_worklist_cons d (answer check_pattern) cfg fuel s nid wl b Hwl Hb).
    rewrite !bind_unfold.
    pose proof (turn_cj d (answer check_pattern) cfg ds n s nid wl b Hc Hj Hwl Hb)
      as Hturn.
    destruct (for_each _ _ _) as [[] s2|e s2|]; [|done..].
    destruct Hturn as (Hc2 & Hj2 & _). by apply IH.
Qed.

Lemma while_pop_raising_eq ds n fuel s :
  returns_on check_pattern cfg → cinv d cfg p ds s → jinv d cfg p n s →
  while_pop_raising d cfg check_pattern fuel s
  = main.while_pop cfg (answer check_pattern) fuel s (H := main_analysis d).
Proof.
  intros Hret. revert s. induction fuel as [|fuel IH]; intros s Hc Hj; [done|].
  destruct (worklist s) as [|nid wl] eqn:Hwl.
  - by rewrite while_pop_raising_nil, while_pop_nil.
  - destruct (decide (nid = 0)) as [->|Hne].
    + by rewrite (while_pop_raising_zero fuel s wl Hwl),
        (while_pop_zero d (answer check_pattern) cfg fuel s wl Hwl).
    + assert (Hin : nid ∈ get_node_ids cfg).
      { apply (c_visited _ _ _ _ _ Hc), (c_worklist _ _ _ _ _ Hc).
        rewrite Hwl. apply list_elem_of_here. }
      destruct (proj2 (c_dom_far _ _ _ _ _ Hc nid) Hin) as [b Hb].
      destruct (Hret nid Hin) as [v Hv].
      rewrite (while_pop_raising_cons fuel s nid wl b v Hwl Hne Hb Hv).
      rewrite (while_pop_cons d (answer check_pattern) cfg fuel s nid wl b Hwl Hne Hb).
      rewrite !bind_unfold.
      pose proof (turn_cj d (answer check_pattern) cfg ds n s nid wl b Hc Hj Hwl Hb)
        as Hturn.
      destruct (for_each _ _ _) as [[] s2|e s2|]; [|done..].
      destruct Hturn as (Hc2 & Hj2 & _). by apply IH.
Qed.

(** The loop over the seeds with two inner loops that agree wherever the
    invariants hold. *)
Lemma seeds_loop_eq (loop loop' : M unit) l :
  (∀ ds n s, cinv d cfg p ds s → jinv d cfg p n s →
     match loop s with
     | Val _ s' => cinv d cfg p ds s' ∧ jinv d cfg p n s'
     | _ => True
     end) →
  (∀ ds n s, cinv d cfg p ds s → jinv d cfg p n s → loop' s = loop s) →
  ∀ ds n s,
    (∀ e, e ∈ l → e ∈ seeds d cfg) → cinv d cfg p ds s → jinv d cfg p n s →
    for_each ((λ e s, Val tt (seeded d e s)) <$> l) (λ seed, seed;; loop') s
    = for_each ((λ e s, Val tt (seeded d e s)) <$> l) (λ seed, seed;; loop) s.
Proof.
  intros Hloop Heq. induction l as [|e l IH]; intros ds n s Hl Hc Hj; [done|].
  cbn [fmap list_fmap for_each]. rewrite !bind_unfold. cbn beta iota.
  assert (He : e ∈ seeds d cfg) by apply Hl, list_elem_of_here.
  pose proof (cinv_seeded d cfg p ds s e Hc (seeds_in_node_ids d cfg e He)) as Hc1.
  pose proof (jinv_seeded d cfg p n s e Hj He) as Hj1.
  rewrite (Heq (e :: ds) (S n) _ Hc1 Hj1).
  pose proof (Hloop (e :: ds) (S n) _ Hc1 Hj1) as Hspec.
  destruct (loop (seeded d e s)) as [[] s2|ex s2|]; [|done..].
  destruct Hspec as (Hc2 & Hj2). apply (IH (e :: ds) (S n)); [|done..].
  intros e' ?. by apply Hl, list_elem_of_further.
Qed.

Lemma while_worklist_keeps ds n fuel s :
  cinv d cfg p ds s → jinv d cfg p n s →
  match ptfa.while_worklist (answer check_pattern) cfg fuel s (H := analysis d) with
  | Val _ s' => cinv d cfg p ds s' ∧ jinv d cfg p n s'
  | _ => True
  end.
Proof.
  intros Hc Hj.
  pose proof (while_worklist_cj d (answer check_pattern) cfg ds n fuel s Hc Hj) as H.
  by destruct (ptfa.while_worklist _ _ _ _).
Qed.

Lemma while_pop_keeps ds n fuel s :
  cinv d cfg p ds s → jinv d cfg p n s →
  match suppress_IndexError
          (main.while_pop cfg (answer check_pattern) fuel (H := main_analysis d)) s with
  | Val _ s' => cinv d cfg p ds s' ∧ jinv d cfg p n s'
  | _ => True
  end.
Proof.
  intros Hc Hj.
  pose proof (while_pop_cj d (answer check_pattern) cfg ds n fuel s Hc Hj) as H.
  by destruct (suppress_IndexError _ _).
Qed.

Lemma ptfa_call_raising_eq fuel s0 :
  returns_on check_pattern cfg →
  ptfa_call_raising d check_pattern cfg fuel s0
  = ptfa.call (answer check_pattern) cfg fuel s0 (H := analysis d).
Proof.
  intros Hret. unfold ptfa_call_raising, ptfa.call, reset.
  rewrite pre_loop_init_eq. rewrite !bind_unfold. cbn beta iota.
  by rewrite (seeds_loop_eq
                (ptfa.while_worklist (answer check_pattern) cfg fuel (H := analysis d))
                (while_worklist_raising d check_pattern cfg fuel) (seeds d cfg)
                (λ ds n s, while_worklist_keeps ds n fuel s)
                (λ ds n s Hc Hj, while_worklist_raising_eq ds n fuel s Hret Hc Hj)
                [] 0%nat _ (λ _ H, H) (cinv_reset d cfg p) (jinv_reset d cfg p)).
Qed.

Lemma suppressed_raising_eq ds n fuel s :
  returns_on check_pattern cfg → cinv d cfg p ds s → jinv d cfg p n s →
  suppress_IndexError (while_pop_raising d cfg check_pattern fuel) s
  = suppress_IndexError
      (main.while_pop cfg (answer check_pattern) fuel (H := main_analysis d)) s.
Proof.
  intros Hret Hc Hj. unfold suppress_IndexError.
  by rewrite (while_pop_raising_eq ds n fuel s Hret Hc Hj).
Qed.

Lemma main_call_raising_eq fuel s0 :
  returns_on check_pattern cfg →
  main_call_raising d cfg check_pattern fuel s0
  = main.call cfg (answer check_pattern) fuel s0 (H := main_analysis d).
Proof.
  intros Hret. unfold main_call_raising, main.call, reset.
  rewrite main_pre_loop_init_eq, pre_loop_init_eq. rewrite !bind_unfold. cbn beta iota.
  by rewrite (seeds_loop_eq
                (suppress_IndexError
                   (main.while_pop cfg (answer check_pattern) fuel (H := main_analysis d)))
                (suppress_IndexError (while_pop_raising d cfg check_pattern fuel))
                (seeds d cfg)
                (λ ds n s, while_pop_keeps ds n fuel s)
                (λ ds n s Hc Hj, suppressed_raising_eq ds n fuel s Hret Hc Hj)
                [] 0%nat _ (λ _ H, H) (cinv_reset d cfg p) (jinv_reset d cfg p)).
Qed.

(** Whatever the inner loop does, [suppress(IndexError)] lets no
    [IndexError] out of the loop over the seeds. *)
Lemma seeds_loop_no_IndexError (loop : M unit) l s s' :
  for_each ((λ e s, Val tt (seeded d e s)) <$> l)
    (λ seed, seed;; suppress_IndexError loop) s ≠ Exc IndexError s'.
Proof.
  revert s. induction l as [|e l IH]; intros s; [done|].
  cbn [fmap list_fmap for_each]. rewrite !bind_unfold. cbn beta iota.
  unfold suppress_IndexError at 1.
  destruct (loop (seeded d e s)) as [[] s2|[k|] s2|]; [apply IH|done|apply IH|done].
Qed.

Lemma main_call_raising_no_IndexError fuel s0 s' :
  main_call_raising d cfg check_pattern fuel s0 ≠ Exc IndexError s'.
Proof.
  unfold main_call_raising, reset, return_dicts.
  rewrite main_pre_loop_init_eq, pre_loop_init_eq. rewrite !bind_unfold. cbn beta iota.
  pose proof (seeds_loop_no_IndexError (while_pop_raising d cfg check_pattern fuel)
                (seeds d cfg)
                (mkState ∅ [] (all_true (get_node_ids cfg))
                   (all_true (get_node_ids cfg)) [])) as Hno.
  destruct (for_each _ _ _) as [[] s1|e s1|]; [done| |done].
  intros [= -> ->]. by apply (Hno s').
Qed.
End raising.

(** X7: no [IndexError] ever leaves a call of [main.py]: the one raised by
    popping the empty worklist and any the predicate raises are caught by
    [with suppress(IndexError)].  And when the predicate returns at every
    node id, the only exception the call lets out is the [KeyError] for a
    neighbour that is not a node id. *)
Theorem main_call_raises_only_dangling_keyerror (d : flow)
    (check_pattern : RaisingCheck) (cfg : CFG) (fuel : nat) (s0 : State)
    (e : exn) (s' : State) :
  main_call_raising d cfg check_pattern fuel s0 = Exc e s' →
  e ≠ IndexError ∧ (returns_on check_pattern cfg → dangling d cfg e).
Proof.
  intros Hcall. split.
  - intros ->. by apply (main_call_raising_no_IndexError d check_pattern cfg fuel s0 s').
  - intros Hret. rewrite (main_call_raising_eq d check_pattern cfg fuel s0 Hret) in Hcall.
    pose proof (main_call_cj d (answer check_pattern) cfg fuel s0) as Hcj.
    rewrite Hcall in Hcj. by destruct Hcj.
Qed.

Lemma main_call_raises_only_dangling_keyerror_witness :
  ∃ s', main_call_raising Forward dangling_cfg (never_raises never) 8 fresh
        = Exc (KeyError 9) s'
        ∧ KeyError 9 ≠ IndexError
        ∧ (returns_on (never_raises never) dangling_cfg →
           dangling Forward dangling_cfg (KeyError 9)).
Proof.
  eexists. split; [vm_compute; reflexivity|].
  eapply (main_call_raises_only_dangling_keyerror Forward (never_raises never)
            dangling_cfg 8 fresh).
  vm_compute; reflexivity.
Defined.

(** X9: for a predicate that returns at every node id, and on a graph
    whose node ids do not contain [0], the call of [main.py] and the call
    of [ptfa.py] give the same outcome: the same mappings and final state,
    or the same exception, for any fuel. *)
Theorem main_agrees_with_ptfa_without_zero (d : flow) (check_pattern : RaisingCheck)
    (cfg : CFG) (fuel : nat) (s0 : State) :
  0 ∉ get_node_ids cfg → returns_on check_pattern cfg →
  main_call_raising d cfg check_pattern fuel s0
  = ptfa_call_raising d check_pattern cfg fuel s0.
Proof.
  intros H0 Hret.
  rewrite (main_call_raising_eq d check_pattern cfg fuel s0 Hret).
  rewrite (ptfa_call_raising_eq d check_pattern cfg fuel s0 Hret).
  by apply call_agree.
Qed.

Lemma main_agrees_with_ptfa_without_zero_witness :
  (0 ∉ get_node_ids cyclic_cfg) ∧ returns_on (never_raises (only_at 3)) cyclic_cfg ∧
  main_call_raising Forward cyclic_cfg (never_raises (only_at 3)) 10 fresh
  = ptfa_call_raising Forward (never_raises (only_at 3)) cyclic_cfg 10 fresh.
Proof.
  assert (H0 : 0 ∉ get_node_ids cyclic_cfg) by compute_done.
  assert (Hret : returns_on (never_raises (only_at 3)) cyclic_cfg).
  { intros k _. by eexists. }
  split; [exact H0|]. split; [exact Hret|].
  apply (main_agrees_with_ptfa_without_zero Forward (never_raises (only_at 3))
           cyclic_cfg 10 fresh H0 Hret).
Defined.

(** Without that condition the two files can differ also where no node
    has id [0]: on the chain, with a predicate that raises [IndexError] at
    node [2], [main.py] returns mappings in which node [2] kept its in fact
    and node [1] was never reached, while [ptfa.py] raises. *)
Lemma raising_predicate_is_swallowed_by_main :
  (∃ i o s, main_call_raising Backward chain_cfg (raises_at 2) 8 fresh = Val (i, o) s
            ∧ i !! 2 = Some true ∧ o !! 2 = Some false ∧ o !! 1 = Some true) ∧
  (∃ s, ptfa_call_raising Backward (raises_at 2) chain_cfg 8 fresh = Exc IndexError s).
Proof.
  split.
  - eexists _, _, _. split; [vm_compute; reflexivity|].
    repeat split; vm_compute; reflexivity.
  - eexists. vm_compute; reflexivity.
Qed.
